(** * Population of the games table from the two top-games feeds

    Shallow embedding of [utils/fetch_aggregated_top_games.js] and of the
    [POST /api/games/populate] route of the express application, followed by
    the properties of the fetch / dedup / persist pipeline. *)

From Stdlib Require Import ZArith.
From stdpp Require Import base option list strings gmap pretty.

Local Open Scope string_scope.
Local Open Scope list_scope.
Local Open Scope Z_scope.

#[local] Set Warnings "-register-all".

(** ** JavaScript values *)

(** What [JSON.parse] can produce.  Numbers are the integers (ids, ranks and
    status codes are), each standing for the double it is read as; fractions
    are outside the model.  An object is the list of its own properties; a
    read takes the first binding of a key. *)
Inductive json : Type :=
| JNull
| JBool (b : bool)
| JNum (n : Z)
| JStr (s : string)
| JArr (items : list json)
| JObj (props : list (string * json)).

(** A value read in the program: a JSON value, or [undefined] ([None]) when
    the property read does not exist. *)
Abbreviation value := (option json).
Abbreviation undefined := (@None json).

(** Exceptions and promise rejections. *)
Inductive js_error : Type :=
| Error (message : string)        (* [new Error(message)] *)
| TypeError                       (* raised by the runtime *)
| SyntaxError                     (* [response.json()] on a body that is not JSON *)
| Rejection (reason : string).    (* rejection by a collaborator: network, database *)

Abbreviation Err A := (js_error + A)%type.

#[global] Instance err_ret : MRet (sum js_error) := λ A a, inr a.
#[global] Instance err_bind : MBind (sum js_error) := λ A B k c,
  match c with
  | inl e => inl e
  | inr a => k a
  end.
#[global] Instance err_throw : MThrow js_error (sum js_error) := λ A e, inl e.

(** [Number.prototype.toString] on integers.  Up to 2^53 an integer is its
    own double and prints as its decimal digits.  Beyond, the number is the
    nearest double and prints with the fewest digits that read back as that
    double, followed by zeros up to 21 digits and in exponent notation from
    there ([1e+21]); past the largest double it is [Infinity]. *)
Module Number.

(** The double nearest to the integer [v > 0], as an integer: [v] is cut to
    53 significant bits, to the nearest and on a tie to the even one. *)
Definition nearest_double (v : Z) : Z :=
  let shift := Z.log2 v - 52 in
  if shift <=? 0 then v
  else
    let q := Z.shiftr v shift in
    let r := Z.land v (Z.ones shift) in
    let half := Z.shiftl 1 (shift - 1) in
    Z.shiftl (if (half <? r) || ((r =? half) && Z.odd q) then q + 1 else q) shift.

Definition decimal_digits (v : Z) : Z := Z.of_nat (String.length (pretty v)).

(** The pairs [(n, s)] with [s] of [k] digits such that [s * 10 ^ (n - k)]
    is read back as the double [x]. *)
Definition with_digits (x k : Z) : list (Z * Z) :=
  n ← [decimal_digits x; decimal_digits x + 1];
  if n <? k then []
  else
    s ← [x / 10 ^ (n - k); x / 10 ^ (n - k) + 1];
    if (10 ^ (k - 1) <=? s) && (s <? 10 ^ k)
       && (nearest_double (s * 10 ^ (n - k)) =? x)
    then [(n, s)] else [].

(** Of two candidates, the one nearer to [x]; on a tie the even [s]. *)
Definition nearer (x k : Z) (a b : Z * Z) : Z * Z :=
  let da := Z.abs (a.2 * 10 ^ (a.1 - k) - x) in
  let db := Z.abs (b.2 * 10 ^ (b.1 - k) - x) in
  if da <? db then a
  else if db <? da then b
  else if Z.even a.2 then a else b.

Definition nearest (x k : Z) (l : list (Z * Z)) : option (Z * Z) :=
  match l with
  | [] => None
  | a :: rest => Some (fold_left (nearer x k) rest a)
  end.

(** The fewest digits that read back as [x]: [(k, n, s)]. *)
Definition shortest (x : Z) : option (Z * Z * Z) :=
  head (k ← seqZ 1 17;
        match nearest x k (with_digits x k) with
        | Some (n, s) => [(k, n, s)]
        | None => []
        end).

Fixpoint zeros (n : nat) : string :=
  match n with
  | O => ""
  | Datatypes.S n' => "0" +:+ zeros n'
  end.

(** The text of the double [x >= 2 ^ 53]. *)
Definition large (x : Z) : string :=
  match shortest x with
  | Some (k, n, s) =>
      if n <=? 21 then pretty s +:+ zeros (Z.to_nat (n - k))
      else
        match pretty s with
        | String c rest =>
            String c (if k =? 1 then "" else "." +:+ rest) +:+ "e+" +:+ pretty (n - 1)
        | EmptyString => EmptyString
        end
  | None => pretty x
  end.

(** [Number.prototype.toString] on the number that the integer [n] reads
    as. *)
Definition toString (n : Z) : string :=
  if Z.abs n <? 2 ^ 53 then pretty n
  else
    let x := nearest_double (Z.abs n) in
    (if n <? 0 then "-" else "")
    +:+ (if 2 ^ 1024 <=? x then "Infinity" else large x).

End Number.

Module JS.

(** ToBoolean. *)
Definition truthy (v : value) : bool :=
  match v with
  | None | Some JNull => false
  | Some (JBool b) => b
  | Some (JNum n) => negb (n =? 0)
  | Some (JStr s) => negb (String.eqb s "")
  | Some (JArr _) | Some (JObj _) => true
  end.

(** [a || d] with a defined right operand. *)
Definition or_else (a : value) (d : json) : json :=
  match a with
  | Some j => if truthy a then j else d
  | None => d
  end.

Fixpoint own (k : string) (props : list (string * json)) : value :=
  match props with
  | [] => None
  | (k', v) :: rest => if String.eqb k k' then Some v else own k rest
  end.

(** [o.k] for the keys the program reads ([bundle_id], [publisher_id],
    [name], [os], [app_id], [version]); none of them is found on a
    prototype, so a primitive or an array answers [undefined], and
    reading from [null] throws. *)
Definition get (o : json) (k : string) : Err value :=
  match o with
  | JNull => inl TypeError
  | JObj props => inr (own k props)
  | JBool _ | JNum _ | JStr _ | JArr _ => inr None
  end.

(** [v.toString()] on a JSON value.  Numbers print as [Number.toString]
    says; an array joins its items with commas, [null] items printing as the
    empty string; a plain object prints as [[object Object]] unless it has
    an own [toString] property, which is never callable. *)
Fixpoint toString (v : json) : Err string :=
  match v with
  | JNull => inl TypeError
  | JBool b => inr (if b then "true" else "false")
  | JNum n => inr (Number.toString n)
  | JStr s => inr s
  | JArr items =>
      (fix join (l : list json) : Err string :=
         match l with
         | [] => inr ""
         | x :: rest =>
             sx ← match x with JNull => inr "" | _ => toString x end;
             match rest with
             | [] => inr sx
             | _ :: _ => srest ← join rest; inr (sx +:+ "," +:+ srest)
             end
         end) items
  | JObj props =>
      match own "toString" props with
      | Some _ => inl TypeError
      | None => inr "[object Object]"
      end
  end.

(** [v.toString()] where [v] may be [undefined]. *)
Definition call_toString (v : value) : Err string :=
  match v with
  | None => inl TypeError
  | Some j => toString j
  end.

(** [v === s] for a string literal [s]. *)
Definition strict_eq_str (v : value) (s : string) : bool :=
  match v with
  | Some (JStr s') => String.eqb s' s
  | _ => false
  end.

(** [Array.prototype.concat] with one argument: an array argument is
    spread, anything else is appended as one item. *)
Definition concat (acc : list json) (arg : json) : list json :=
  match arg with
  | JArr items => acc ++ items
  | _ => acc ++ [arg]
  end.

(** [Array.isArray]. *)
Definition isArray (v : json) : bool :=
  match v with JArr _ => true | _ => false end.

(** [Set.prototype.has] on a set of strings: a value that is not a string
    is the same as none of its members. *)
Definition has (X : gset string) (v : value) : bool :=
  match v with
  | Some (JStr s) => bool_decide (s ∈ X)
  | _ => false
  end.

Fixpoint filter {A} (f : A → Err bool) (l : list A) : Err (list A) :=
  match l with
  | [] => inr []
  | x :: rest =>
      b ← f x;
      rest' ← filter f rest;
      inr (if (b : bool) then x :: rest' else rest')
  end.

Fixpoint map {A B} (f : A → Err B) (l : list A) : Err (list B) :=
  match l with
  | [] => inr []
  | x :: rest =>
      y ← f x;
      rest' ← map f rest;
      inr (y :: rest')
  end.

End JS.

(** ** Data of the pipeline *)

(** The object built for [bulkCreate]: the fields copied from the record keep
    whatever value the record has. *)
Record GameEntity : Type := {
  publisherId : value;
  name : value;
  platform : string;
  storeId : string;
  bundleId : value;
  appVersion : json;
  isPublished : bool;
}.

(** What [fetch] resolves with: the status, and what [response.json()]
    settles with: the value [body] holds, or with [None] the rejection
    [json_rejection], a [SyntaxError] for a body that is not JSON and a
    [TypeError] for a body that cannot be read. *)
Record response : Type := {
  status : Z;
  body : option json;
  json_rejection : js_error;
}.

(** [response.ok]: the status is in the range 200-299. *)
Definition ok (r : response) : bool :=
  (200 <=? status r) && (status r <=? 299).

(** What the route sends back: [res.status(code).send(sent)]. *)
Inductive payload : Type :=
| ErrorBody (error : string)          (* [{ error }] *)
| MessageBody (message : string)      (* [{ message }] *)
| AddedBody (added : nat).            (* [{ added }] *)

Record reply : Type := {
  code : Z;
  sent : payload;
}.

(** Calls to the outside world, in the order they are recorded. *)
Inductive event : Type :=
| Fetch (url : string)                              (* [fetch(url)] *)
| ResponseJson (r : response)                       (* [response.json()] *)
| ConsoleError (msg : string) (err : js_error)
| ConsoleLog (msg : string) (err : option js_error)
| FindAll (keys : list value)                       (* [db.Game.findAll] *)
| BulkCreate (entities : list GameEntity).          (* [db.Game.bulkCreate] *)

Definition is_network_call (ev : event) : bool :=
  match ev with Fetch _ => true | _ => false end.

Definition is_json_parse (ev : event) : bool :=
  match ev with ResponseJson _ => true | _ => false end.

Definition is_insert (ev : event) : bool :=
  match ev with BulkCreate _ => true | _ => false end.

Definition is_persistence_call (ev : event) : bool :=
  match ev with FindAll _ | BulkCreate _ => true | _ => false end.

(** ** Promise chains *)

(** A chain runs against the store [S], settles with a value or a rejection
    and records its calls. *)
Definition promise (S A : Type) : Type := S → Err A * S * list event.

Section Promise.
Context {S : Type}.

#[global] Instance promise_ret : MRet (promise S) := λ A a s, (inr a, s, []).

(** [.then]: a rejection skips the continuation. *)
#[global] Instance promise_bind : MBind (promise S) := λ A B k p s,
  match p s with
  | (inl e, s', t) => (inl e, s', t)
  | (inr a, s', t) =>
      match k a s' with
      | (r, s'', t') => (r, s'', t ++ t')
      end
  end.

#[global] Instance promise_throw : MThrow js_error (promise S) :=
  λ A e s, (inl e, s, []).

(** [.catch]. *)
Definition catch {A} (p : promise S A) (h : js_error → promise S A) : promise S A :=
  λ s,
    match p s with
    | (inl e, s', t) =>
        match h e s' with
        | (r, s'', t') => (r, s'', t ++ t')
        end
    | (inr a, s', t) => (inr a, s', t)
    end.

Definition emit (ev : event) : promise S () := λ s, (inr (), s, [ev]).

(** A synchronous computation inside a callback. *)
Definition lift {A} (c : Err A) : promise S A := λ s, (c, s, []).

(** A chain that does not use the store. *)
Definition settle {A} (p : promise () A) : promise S A :=
  λ s, match p () with (r, _, t) => (r, s, t) end.

End Promise.

(** [Promise.all] of two chains.  Both are started whatever the other does;
    the join rejects as soon as one rejects, with the rejection that comes
    first ([left_first] says which chain settles first).  The calls of each
    chain are recorded together, those of the chain that settles first
    before the other's. *)
Definition Promise_all {A} (left_first : bool) (p q : promise () A) : promise () (A * A) :=
  λ s,
    match p (), q () with
    | (r1, _, t1), (r2, _, t2) =>
        (match r1, r2 with
         | inr a, inr b => inr (a, b)
         | inl e, inr _ => inl e
         | inr _, inl e => inl e
         | inl e1, inl e2 => inl (if left_first then e1 else e2)
         end,
         s,
         if left_first then t1 ++ t2 else t2 ++ t1)
    end.

(** ** utils/fetch_aggregated_top_games.js *)

Section Fetcher.
(** The network: what [fetch(url)] settles with. *)
Variable net : string → Err response.

Definition fetch (url : string) : promise () response :=
  λ s, (net url, s, [Fetch url]).

Definition response_json (r : response) : promise () json :=
  λ s, (match body r with Some data => inr data | None => inl (json_rejection r) end,
        s, [ResponseJson r]).

Definition fetchAggregatedTopGames (url : string) : promise () (list json) :=
  catch
    (data ← (response ← fetch url;
             if negb (ok response)
             then mthrow (Error ("HTTP error! Status: " +:+ pretty (status response)))
             else response_json response);
     match data with
     | JArr groups =>
         (* Flatten the nested arrays into a single flat array *)
         mret (fold_left (λ acc group, JS.concat acc group) groups [])
     | _ => mthrow (Error "Unexpected JSON structure: expected an array")
     end)
    (λ error,
       emit (ConsoleError "Failed to fetch or process top games:" error);;
       mthrow error).

End Fetcher.

(** ** The persistence layer *)

(** The two calls the route makes on [db.Game], over a store [S].
    [findAll s keys] is the query [{ attributes: ['bundleId'], where:
    { bundleId: keys } }] and answers the [bundleId] of each row found (the
    column holds strings); [bulkCreate s entities] answers the store it
    leaves.  Either may reject. *)
Record GameModel (S : Type) : Type := {
  findAll : S → list value → Err (list string);
  bulkCreate : S → list GameEntity → Err () * S;
}.
Arguments findAll {S} _ _ _.
Arguments bulkCreate {S} _ _ _.

(** Modelled from the spec: the persistence layer ([./models] and the
    database behind it), of which the sources only hold the calls.  The store
    is the sequence of persisted entities; the existing-key lookup answers
    the [bundleId] of every persisted entity whose [bundleId] is among the
    keys asked for, and the batch insert appends its entities in one call.
    Neither fails. *)
Definition findAllExisting (st : list GameEntity) (bundleIds : list value) : list string :=
  omap (λ row,
          match bundleId row with
          | Some (JStr s) =>
              if existsb (λ key, JS.strict_eq_str key s) bundleIds
              then Some s else None
          | _ => None
          end) st.

(** Modelled from the spec: the batch insert of the persistence layer, one
    call that persists all its entities after those already there. *)
Definition bulkInsert (st entities : list GameEntity) : list GameEntity :=
  st ++ entities.

(** Modelled from the spec: the [Game] model over that store, with
    [findAllExisting] for [findAll] and [bulkInsert] for [bulkCreate]. *)
Definition spec_store : GameModel (list GameEntity) := {|
  findAll st keys := inr (findAllExisting st keys);
  bulkCreate st entities := (inr (), bulkInsert st entities);
|}.

(** ** The route POST /api/games/populate *)

Record env : Type := {
  JSON_URL_IOS : option string;
  JSON_URL_ANDROID : option string;
}.

(** What a run depends on besides the store: the environment, the network
    and the order in which the two fetches settle. *)
Record world : Type := {
  process_env : env;
  net : string → Err response;
  ios_settles_first : bool;
}.

(** ToBoolean of an environment variable. *)
Definition is_set (v : option string) : bool :=
  match v with
  | Some s => negb (String.eqb s "")
  | None => false
  end.

(** Only keep new games: the [filter] callback. *)
Definition is_new (existingBundleIds : gset string) (game : json) : Err bool :=
  bundle_id ← JS.get game "bundle_id";
  if JS.truthy bundle_id
  then bundle_id' ← JS.get game "bundle_id";
       mret (negb (JS.has existingBundleIds bundle_id'))
  else mret false.

(** The [map] callback. *)
Definition to_entity (game : json) : Err GameEntity :=
  publisher_id ← JS.get game "publisher_id";
  name' ← JS.get game "name";
  os ← JS.get game "os";
  app_id ← JS.get game "app_id";
  storeId' ← JS.call_toString app_id; (* convert ios app_id from number *)
  bundle_id ← JS.get game "bundle_id";
  version ← JS.get game "version";
  mret {| publisherId := publisher_id;
          name := name';
          platform := if JS.strict_eq_str os "ios" then "ios" else "android";
          storeId := storeId';
          bundleId := bundle_id;
          appVersion := JS.or_else version (JStr "");
          isPublished := true |}.

(** The dedup filter: [topGames.filter(...).map(...)]. *)
Definition newGames (existingBundleIds : gset string) (topGames : list json)
  : Err (list GameEntity) :=
  kept ← JS.filter (is_new existingBundleIds) topGames;
  JS.map to_entity kept.

Definition config_error : reply :=
  {| code := 500; sent := ErrorBody "Missing IOS_JSON_URL or ANDROID_JSON_URL in .env" |}.

Definition no_data : reply :=
  {| code := 200; sent := MessageBody "No new games to add (no data available)." |}.

Definition no_new_games : reply :=
  {| code := 200; sent := MessageBody "No new games to add." |}.

Definition added (n : nat) : reply :=
  {| code := 201; sent := AddedBody n |}.

Definition failure : reply :=
  {| code := 500; sent := ErrorBody "Failed to populate database" |}.

Section Populate.
Context {S : Type} (Game : GameModel S).

Definition Game_findAll (keys : list value) : promise S (list string) :=
  λ s, (findAll Game s keys, s, [FindAll keys]).

Definition Game_bulkCreate (entities : list GameEntity) : promise S () :=
  λ s, match bulkCreate Game s entities with
       | (r, s') => (r, s', [BulkCreate entities])
       end.

(** The callback of [Promise.all(...).then]. *)
Definition on_feeds (iosGames androidGames : list json) : promise S reply :=
  let topGames := iosGames ++ androidGames in
  if negb (JS.truthy (Some (JArr topGames))) then mret no_data
  else
    (* Get existing ones from DB *)
    keys ← lift (JS.map (λ game, JS.get game "bundle_id") topGames);
    existingGames ← Game_findAll keys;
    let existingBundleIds : gset string := list_to_set existingGames in
    (* Only keep new games *)
    new ← lift (newGames existingBundleIds topGames);
    if (length new =? 0)%nat then mret no_new_games
    else
      Game_bulkCreate new;;
      emit (ConsoleLog ("Populated " +:+ pretty (length new) +:+ " new games.") None);;
      mret (added (length new)).

Definition populate (w : world) : promise S reply :=
  let iosUrl := JSON_URL_IOS (process_env w) in
  let androidUrl := JSON_URL_ANDROID (process_env w) in
  if negb (is_set iosUrl) || negb (is_set androidUrl) then
    emit (ConsoleLog
            "***The file .env file is missing or incomplete (tip: run `cp .env.example .env`)"
            None);;
    mret config_error
  else
    catch
      (feeds ← settle (Promise_all (ios_settles_first w)
                         (fetchAggregatedTopGames (net w) (default "" iosUrl))
                         (fetchAggregatedTopGames (net w) (default "" androidUrl)));
       on_feeds feeds.1 feeds.2)
      (λ err,
         emit (ConsoleLog "***There was an error populating games" (Some err));;
         mret failure).

End Populate.

(** ** Reading a run *)

Definition outcome {S A} (run : Err A * S * list event) : Err A := run.1.1.
Definition store_after {S A} (run : Err A * S * list event) : S := run.1.2.
Definition calls {S A} (run : Err A * S * list event) : list event := run.2.

(** ** Auxiliary notions of the statements *)

(** The body is an array whose items are all arrays. *)
Definition array_of_arrays (data : json) : bool :=
  match data with
  | JArr groups => forallb JS.isArray groups
  | _ => false
  end.

(** The log of the [catch] of the route. *)
Definition populate_error_log (err : js_error) : event :=
  ConsoleLog "***There was an error populating games" (Some err).

(** The calls of the two fetches, in the order of the join. *)
Definition fetch_calls (w : world) (iosUrl androidUrl : string) : list event :=
  let ios := calls (fetchAggregatedTopGames (net w) iosUrl ()) in
  let android := calls (fetchAggregatedTopGames (net w) androidUrl ()) in
  if ios_settles_first w then ios ++ android else android ++ ios.

(** The record follows the data model: its [bundle_id] is a string, [null]
    or absent. *)
Definition bundle_id_typed (game : json) : bool :=
  match JS.get game "bundle_id" with
  | inr (Some (JStr _)) | inr (Some JNull) | inr None => true
  | inr (Some _) => false
  | inl _ => true
  end.

(** What [concat] appends for one item of the body: the items of an array,
    anything else as it is. *)
Definition one_level (item : json) : list json :=
  match item with
  | JArr items => items
  | _ => [item]
  end.

Definition is_console_error (ev : event) : bool :=
  match ev with ConsoleError _ _ => true | _ => false end.

(** The same world with the two fetches settling in the given order. *)
Definition with_order (ios_first : bool) (w : world) : world :=
  {| process_env := process_env w; net := net w; ios_settles_first := ios_first |}.

(** The record is new for the existing keys [X]: the filter keeps it. *)
Definition kept_by (X : gset string) (bundle_id : value) : bool :=
  JS.truthy bundle_id && negb (JS.has X bundle_id).

(** ** The other routes of the application *)

Module Crud.

(** What [parseInt] answers: an integer, or [NaN] when the text does not
    start with one. *)
Inductive number : Type :=
| Num (n : Z)
| NaN.

(** The built-ins the routes call on text. *)
Record Runtime : Type := {
  trim : string → string;              (* [String.prototype.trim] *)
  toLowerCase : string → string;       (* [String.prototype.toLowerCase] *)
  parseInt : string → number;          (* [parseInt(text)], without a radix *)
}.

(** The seven properties the routes copy from [req.body]. *)
Record fields : Type := {
  publisherId : value;
  name : value;
  platform : value;
  storeId : value;
  bundleId : value;
  appVersion : value;
  isPublished : value;
}.

(** The [where] object of the search: [platform] when it is set, and the
    [Op.like] pattern of [name] when it is set. *)
Record where_clause : Type := {
  where_platform : option string;
  where_name_like : option string;
}.

(** What a route sends. *)
Inductive content (Row : Type) : Type :=
| Games (games : list Row)
| Game (game : Row)
| Id (id : number)                     (* [{ id }] *)
| Failed (err : js_error)              (* [send(err)] *)
| ErrorMessage (error : string).       (* [{ error }] *)
Arguments Games {Row} _.
Arguments Game {Row} _.
Arguments Id {Row} _.
Arguments Failed {Row} _.
Arguments ErrorMessage {Row} _.

(** [res.status(http_status).send(sent)]; the status is 200 when the route
    does not set it. *)
Record answer (Row : Type) : Type := {
  http_status : Z;
  sent : content Row;
}.
Arguments Build_answer {Row} _ _.
Arguments http_status {Row} _.
Arguments sent {Row} _.

(** The calls of the routes on [db.Game], on a model instance and on the
    console. *)
Inductive call (Row : Type) : Type :=
| FindAll (options : option where_clause)       (* [findAll()], [findAll({ where })] *)
| Create (f : fields)
| FindByPk (id : number)
| Destroy (game : Row)                          (* [game.destroy({ force: true })] *)
| Update (game : Row) (f : fields)              (* [game.update(...)] *)
| Log (msg : string) (query : option where_clause) (err : js_error).
Arguments FindAll {Row} _.
Arguments Create {Row} _.
Arguments FindByPk {Row} _.
Arguments Destroy {Row} _.
Arguments Update {Row} _ _.
Arguments Log {Row} _ _ _.

Definition is_write {Row} (c : call Row) : bool :=
  match c with Create _ | Destroy _ | Update _ _ => true | _ => false end.

Definition is_table_call {Row} (c : call Row) : bool :=
  match c with Log _ _ _ => false | _ => true end.

(** The model [db.Game] as the routes use it, over a store [S] with model
    instances [Row].  [findByPk] answers [None] for [null]: no such row;
    [update] answers the instance as the update leaves it.  Every call may
    reject. *)
Record Table (S Row : Type) : Type := {
  findAll : S → option where_clause → Err (list Row);
  create : S → fields → Err Row * S;
  findByPk : S → number → Err (option Row);
  destroy : S → Row → Err () * S;
  update : S → Row → fields → Err Row * S;
}.
Arguments findAll {S Row} _ _ _.
Arguments create {S Row} _ _ _.
Arguments findByPk {S Row} _ _ _.
Arguments destroy {S Row} _ _ _.
Arguments update {S Row} _ _ _ _.

(** A promise chain of a route: as [promise], with the calls above. *)
Definition chain (Row S A : Type) : Type := S → Err A * S * list (call Row).

Section Chain.
Context {Row S : Type}.

#[global] Instance chain_ret : MRet (chain Row S) := λ A a s, (inr a, s, []).

#[global] Instance chain_bind : MBind (chain Row S) := λ A B k p s,
  match p s with
  | (inl e, s', t) => (inl e, s', t)
  | (inr a, s', t) =>
      match k a s' with
      | (r, s'', t') => (r, s'', t ++ t')
      end
  end.

#[global] Instance chain_throw : MThrow js_error (chain Row S) :=
  λ A e s, (inl e, s, []).

(** [.catch]. *)
Definition handle {A} (p : chain Row S A) (h : js_error → chain Row S A) : chain Row S A :=
  λ s,
    match p s with
    | (inl e, s', t) =>
        match h e s' with
        | (r, s'', t') => (r, s'', t ++ t')
        end
    | (inr a, s', t) => (inr a, s', t)
    end.

Definition record (c : call Row) : chain Row S () := λ s, (inr (), s, [c]).

(** A synchronous computation. *)
Definition sync {A} (c : Err A) : chain Row S A := λ s, (c, s, []).

End Chain.

(** [const { publisherId, name, platform, storeId, bundleId, appVersion,
    isPublished } = req.body]: none of the seven keys is found on a
    prototype. *)
Definition read_fields (body : json) : Err fields :=
  publisherId' ← JS.get body "publisherId";
  name' ← JS.get body "name";
  platform' ← JS.get body "platform";
  storeId' ← JS.get body "storeId";
  bundleId' ← JS.get body "bundleId";
  appVersion' ← JS.get body "appVersion";
  isPublished' ← JS.get body "isPublished";
  mret {| publisherId := publisherId'; name := name'; platform := platform';
          storeId := storeId'; bundleId := bundleId'; appVersion := appVersion';
          isPublished := isPublished' |}.

(** The keys that destructuring reads. *)
Definition copied_keys : list string :=
  ["publisherId"; "name"; "platform"; "storeId"; "bundleId"; "appVersion";
   "isPublished"].

(** ToBoolean of a string. *)
Definition non_empty (s : string) : bool := negb (String.eqb s "").

(** A value that is truthy and not a string: it has no [trim]. *)
Definition not_text (v : value) : bool :=
  match v with
  | Some (JStr _) => false
  | _ => JS.truthy v
  end.

Section Routes.
Context {S Row : Type} (rt : Runtime) (db : Table S Row).

Definition Game_findAll (options : option where_clause) : chain Row S (list Row) :=
  λ s, (findAll db s options, s, [FindAll options]).

Definition Game_create (f : fields) : chain Row S Row :=
  λ s, match create db s f with (r, s') => (r, s', [Create f]) end.

Definition Game_findByPk (id : number) : chain Row S (option Row) :=
  λ s, (findByPk db s id, s, [FindByPk id]).

Definition game_destroy (game : Row) : chain Row S () :=
  λ s, match destroy db s game with (r, s') => (r, s', [Destroy game]) end.

Definition game_update (game : Row) (f : fields) : chain Row S Row :=
  λ s, match update db s game f with (r, s') => (r, s', [Update game f]) end.

(** [app.get('/api/games', ...)]. *)
Definition get_games : chain Row S (answer Row) :=
  handle
    (games ← Game_findAll None;
     mret (Build_answer 200 (Games games)))
    (λ err,
       record (Log "***There was an error querying games" None err);;
       mret (Build_answer 200 (Failed err))).

(** [app.post('/api/games', ...)]. *)
Definition post_game (body : json) : chain Row S (answer Row) :=
  f ← sync (read_fields body);
  handle
    (game ← Game_create f;
     mret (Build_answer 200 (Game game)))
    (λ err,
       record (Log "***There was an error creating a game" None err);;
       mret (Build_answer 400 (Failed err))).

(** [app.delete('/api/games/:id', ...)]; calling [destroy] on [null] throws. *)
Definition delete_game (params_id : string) : chain Row S (answer Row) :=
  let id := parseInt rt params_id in
  handle
    (game ← Game_findByPk id;
     match game with
     | Some game => game_destroy game
     | None => mthrow TypeError
     end;;
     mret (Build_answer 200 (Id id)))
    (λ err,
       record (Log "***There was an error deleting game" None err);;
       mret (Build_answer 400 (Failed err))).

(** [app.put('/api/games/:id', ...)]: the [catch] is on the update only;
    a rejection of [findByPk], or a throw in its callback, has no handler
    and the route sends nothing. *)
Definition put_game (params_id : string) (body : json) : chain Row S (answer Row) :=
  let id := parseInt rt params_id in
  game ← Game_findByPk id;
  f ← sync (read_fields body);
  match game with
  | None => mthrow TypeError
  | Some game =>
      handle
        (game' ← game_update game f;
         mret (Build_answer 200 (Game game')))
        (λ err,
           record (Log "***There was an error updating game" None err);;
           mret (Build_answer 400 (Failed err)))
  end.

(** [(v || '').trim().toLowerCase()]. *)
Definition normalize (v : value) : Err string :=
  match JS.or_else v (JStr "") with
  | JStr s => inr (toLowerCase rt (trim rt s))
  | _ => inl TypeError
  end.

(** [app.post('/api/games/search', ...)]; what is thrown before the query
    leaves the route without an answer of its own. *)
Definition search_games (body : json) : chain Row S (answer Row) :=
  name' ← sync (JS.get body "name");
  platform' ← sync (JS.get body "platform");
  (* Normalize inputs *)
  platform' ← sync (normalize platform');
  name' ← sync (normalize name');
  if non_empty name' && negb (non_empty platform') then
    mret (Build_answer 400 (ErrorMessage "Platform is required when name is provided"))
  else
    (* Populate where clause *)
    let query :=
      {| where_platform := if non_empty platform' then Some platform' else None;
         where_name_like :=
           if non_empty name' then Some ("%" +:+ name' +:+ "%") else None |} in
    handle
      (games ← Game_findAll (Some query);
       mret (Build_answer 200 (Games games)))
      (λ err,
         record (Log "***There was an error searching games using where=" (Some query) err);;
         mret (Build_answer 400 (Failed err))).

End Routes.

(** Reading a run of a route. *)
Definition outcome {Row S A} (run : Err A * S * list (call Row)) : Err A := run.1.1.
Definition store_after {Row S A} (run : Err A * S * list (call Row)) : S := run.1.2.
Definition calls {Row S A} (run : Err A * S * list (call Row)) : list (call Row) := run.2.

End Crud.

(** Fixtures used by the examples below. *)
Module Fixture.

Definition G1 : json :=
  JObj [("bundle_id", JStr "a"); ("os", JStr "ios"); ("app_id", JNum 1);
        ("publisher_id", JNum 9); ("name", JStr "G1")].

Definition G2 : json :=
  JObj [("publisher_id", JNum 4); ("name", JStr "G2"); ("os", JStr "android");
        ("app_id", JStr "com.g2"); ("bundle_id", JStr "b"); ("version", JStr "1.2")].

(** A record with a new bundle id and no [app_id]. *)
Definition no_app_id : json := JObj [("bundle_id", JStr "a")].

(** A record without [bundle_id]. *)
Definition no_bundle_id : json := JObj [("os", JStr "ios"); ("name", JStr "G3")].

Definition serve (ios android : Err response) : string → Err response :=
  λ url,
    if String.eqb url "http://feeds/ios" then ios
    else if String.eqb url "http://feeds/android" then android
    else inl (Rejection "fetch failed").

Definition json_ok (data : json) : Err response :=
  inr {| status := 200; json_rejection := SyntaxError; body := Some data |}.

Definition configured : env :=
  {| JSON_URL_IOS := Some "http://feeds/ios";
     JSON_URL_ANDROID := Some "http://feeds/android" |}.

Definition with_feeds (ios android : Err response) : world :=
  {| process_env := configured; net := serve ios android; ios_settles_first := true |}.

(** Scenario A of the specification. *)
Definition scenario_A : world :=
  with_feeds (json_ok (JArr [JArr [G1]])) (json_ok (JArr [JArr []])).

(** Scenario C: the iOS feed answers 404. *)
Definition scenario_C : world :=
  with_feeds (inr {| status := 404; json_rejection := SyntaxError; body := None |}) (json_ok (JArr [JArr [G2]])).

(** Scenario D: [JSON_URL_IOS] is unset. *)
Definition scenario_D : world :=
  {| process_env := {| JSON_URL_IOS := None;
                       JSON_URL_ANDROID := Some "http://feeds/android" |};
     net := serve (json_ok (JArr [JArr [G1]])) (json_ok (JArr [JArr [G2]]));
     ios_settles_first := true |}.

(** A feed whose only record has a new bundle id and no [app_id]. *)
Definition scenario_no_app_id : world :=
  with_feeds (json_ok (JArr [JArr [no_app_id]])) (json_ok (JArr [JArr []])).

Definition persisted_G1 : GameEntity :=
  {| publisherId := Some (JNum 9); name := Some (JStr "G1"); platform := "ios";
     storeId := "1"; bundleId := Some (JStr "a"); appVersion := JStr "";
     isPublished := true |}.




End Fixture.

(** Fixtures for the other routes. *)
Module CrudFixture.

(** The built-ins on ASCII text: the white space of [trim] is the space and
    the characters 9 to 13, [toLowerCase] acts on the letters A to Z, and
    [parseInt] reads an optional sign, an optional [0x] and the digits that
    follow. *)
Definition is_space (c : Ascii.ascii) : bool :=
  let n := Ascii.nat_of_ascii c in
  Nat.eqb n 32 || (Nat.leb 9 n && Nat.leb n 13).

Fixpoint trim_start (s : string) : string :=
  match s with
  | String c rest => if is_space c then trim_start rest else s
  | EmptyString => EmptyString
  end.

Definition ascii_trim (s : string) : string :=
  String.rev (trim_start (String.rev (trim_start s))).

Definition lower (c : Ascii.ascii) : Ascii.ascii :=
  let n := Ascii.nat_of_ascii c in
  if Nat.leb 65 n && Nat.leb n 90 then Ascii.ascii_of_nat (n + 32) else c.

Fixpoint ascii_toLowerCase (s : string) : string :=
  match s with
  | String c rest => String (lower c) (ascii_toLowerCase rest)
  | EmptyString => EmptyString
  end.

Definition digit (radix : Z) (c : Ascii.ascii) : option Z :=
  let n := Z.of_nat (Ascii.nat_of_ascii c) in
  let d := if (48 <=? n) && (n <=? 57) then n - 48
           else if (97 <=? n) && (n <=? 122) then n - 87
           else if (65 <=? n) && (n <=? 90) then n - 55
           else radix in
  if d <? radix then Some d else None.

Fixpoint digits (radix : Z) (acc : option Z) (s : string) : option Z :=
  match s with
  | String c rest =>
      match digit radix c with
      | Some d => digits radix (Some (radix * default 0 acc + d)) rest
      | None => acc
      end
  | EmptyString => acc
  end.

(** The character with the given code: 43 and 45 are the signs, 48 is the
    zero, 88 and 120 are X and x. *)
Definition has_code (n : nat) (c : Ascii.ascii) : bool :=
  Nat.eqb (Ascii.nat_of_ascii c) n.

Definition ascii_parseInt (s : string) : Crud.number :=
  let s := trim_start s in
  let signed :=
    match s with
    | String c rest =>
        if has_code 45 c then (-1, rest)
        else if has_code 43 c then (1, rest)
        else (1, s)
    | EmptyString => (1, s)
    end in
  let based :=
    match signed.2 with
    | String c (String x rest) =>
        if has_code 48 c && (has_code 120 x || has_code 88 x)
        then (16, rest) else (10, signed.2)
    | _ => (10, signed.2)
    end in
  match digits based.1 None based.2 with
  | Some n => Crud.Num (signed.1 * n)
  | None => Crud.NaN
  end.

Definition runtime : Crud.Runtime :=
  {| Crud.trim := ascii_trim;
     Crud.toLowerCase := ascii_toLowerCase;
     Crud.parseInt := ascii_parseInt |}.

(** A table in memory for the examples: the rows are numbered, a query
    answers what [answers] says for it, and the calls on one row find it,
    remove it or set those of its fields that are defined. *)
Definition row : Type := Z * Crud.fields.

Definition set_fields (old new : Crud.fields) : Crud.fields :=
  let pick (o n : value) := match n with Some _ => n | None => o end in
  {| Crud.publisherId := pick (Crud.publisherId old) (Crud.publisherId new);
     Crud.name := pick (Crud.name old) (Crud.name new);
     Crud.platform := pick (Crud.platform old) (Crud.platform new);
     Crud.storeId := pick (Crud.storeId old) (Crud.storeId new);
     Crud.bundleId := pick (Crud.bundleId old) (Crud.bundleId new);
     Crud.appVersion := pick (Crud.appVersion old) (Crud.appVersion new);
     Crud.isPublished := pick (Crud.isPublished old) (Crud.isPublished new) |}.

Definition same_id (id : Crud.number) (r : row) : bool :=
  match id with
  | Crud.Num n => r.1 =? n
  | Crud.NaN => false
  end.

Definition table (answers : option Crud.where_clause → Err (list row))
  : Crud.Table (list row) row :=
  {| Crud.findAll st query := answers query;
     Crud.create st f :=
       let r := (Z.of_nat (length st) + 1, f) in (inr r, st ++ [r]);
     Crud.findByPk st id := inr (List.find (same_id id) st);
     Crud.destroy st game :=
       (inr (), List.filter (λ r, negb (r.1 =? game.1)) st);
     Crud.update st game f :=
       (inr (game.1, set_fields game.2 f),
        List.map (λ r, if r.1 =? game.1 then (r.1, set_fields r.2 f) else r) st) |}.

(** A table whose every call rejects. *)
Definition broken (e : js_error) : Crud.Table (list row) row :=
  {| Crud.findAll st query := inl e;
     Crud.create st f := (inl e, st);
     Crud.findByPk st id := inl e;
     Crud.destroy st game := (inl e, st);
     Crud.update st game f := (inl e, st) |}.

Definition no_fields : Crud.fields :=
  {| Crud.publisherId := None; Crud.name := None; Crud.platform := None;
     Crud.storeId := None; Crud.bundleId := None; Crud.appVersion := None;
     Crud.isPublished := None |}.

Definition tetris : row :=
  (1, {| Crud.publisherId := Some (JStr "p1"); Crud.name := Some (JStr "Tetris");
         Crud.platform := Some (JStr "ios"); Crud.storeId := Some (JStr "11");
         Crud.bundleId := Some (JStr "com.tetris"); Crud.appVersion := Some (JStr "1.0");
         Crud.isPublished := Some (JBool true) |}).

End CrudFixture.

Example scenario_A_run :
  populate spec_store Fixture.scenario_A [] =
    (inr {| code := 201; sent := AddedBody 1 |},
     [Fixture.persisted_G1],
     [Fetch "http://feeds/ios";
      ResponseJson {| status := 200; json_rejection := SyntaxError; body := Some (JArr [JArr [Fixture.G1]]) |};
      Fetch "http://feeds/android";
      ResponseJson {| status := 200; json_rejection := SyntaxError; body := Some (JArr [JArr []]) |};
      FindAll [Some (JStr "a")];
      BulkCreate [Fixture.persisted_G1];
      ConsoleLog "Populated 1 new games." None]).
Proof. vm_compute. reflexivity. Qed.

(** ** The feed fetcher *)

Ltac run_promise :=
  unfold outcome, store_after, calls, catch, emit, lift, settle, mbind,
    promise_bind, mret, promise_ret, mthrow, promise_throw in *;
  cbn [fst snd] in *.

Ltac run_chain :=
  unfold fetchAggregatedTopGames, fetch, response_json in *; run_promise.

Lemma reduce_concat_arrays (groups : list (list json)) (acc : list json) :
  fold_left (λ acc group, JS.concat acc group) (JArr <$> groups) acc
  = acc ++ concat groups.
Proof.
  revert acc. induction groups as [|g groups IH]; intros acc; simpl.
  - by rewrite app_nil_r.
  - rewrite IH. by rewrite app_assoc.
Qed.

Lemma length_concat_sum (groups : list (list json)) :
  length (concat groups) = sum_list (length <$> groups).
Proof.
  induction groups as [|g groups IH]; simpl; [done|].
  rewrite length_app. by rewrite IH.
Qed.

(** What the fetcher does with a response whose status is a success and
    whose body is JSON. *)
Lemma fetch_parsed net url r data :
  net url = inr r → ok r = true → body r = Some data →
  fetchAggregatedTopGames net url () =
    match data with
    | JArr groups =>
        (inr (fold_left (λ acc group, JS.concat acc group) groups []), (),
         [Fetch url; ResponseJson r])
    | _ =>
        let error := Error "Unexpected JSON structure: expected an array" in
        (inl error, (),
         [Fetch url; ResponseJson r;
          ConsoleError "Failed to fetch or process top games:" error])
    end.
Proof.
  intros Hnet Hok Hbody. run_chain. rewrite Hnet, Hok. cbn. rewrite Hbody.
  by destruct data.
Qed.

(** C3: when the body parses to an array of arrays, the fetcher resolves with
    the concatenation of the groups, in order, whose length is the sum of the
    lengths of the groups. *)
Theorem fetch_flattens_groups net url r (groups : list (list json)) :
  net url = inr r → ok r = true → body r = Some (JArr (JArr <$> groups)) →
  ∃ games,
    outcome (fetchAggregatedTopGames net url ()) = inr games
    ∧ games = concat groups
    ∧ length games = sum_list (length <$> groups).
Proof.
  intros Hnet Hok Hbody. exists (concat groups).
  rewrite (fetch_parsed _ _ _ _ Hnet Hok Hbody). unfold outcome; cbn [fst].
  rewrite reduce_concat_arrays. cbn [app]. split_and!; [done..|].
  apply length_concat_sum.
Qed.

Lemma fetch_flattens_groups_witness :
  ∃ games,
    outcome (fetchAggregatedTopGames
               (Fixture.serve
                  (Fixture.json_ok
                     (JArr [JArr [Fixture.G1; JNull]; JArr []; JArr [Fixture.G2]]))
                  (inl (Rejection "down")))
               "http://feeds/ios" ())
    = inr games
    ∧ games = [Fixture.G1; JNull; Fixture.G2]
    ∧ length games = 3%nat.
Proof.
  apply (fetch_flattens_groups _ "http://feeds/ios"
           {| status := 200; json_rejection := SyntaxError;
              body := Some (JArr [JArr [Fixture.G1; JNull]; JArr []; JArr [Fixture.G2]]) |}
           [[Fixture.G1; JNull]; []; [Fixture.G2]]);
    reflexivity.
Defined.

(** C5, as stated, fails: an array with an item that is not an array passes
    the validation, and the item is kept as it is. *)
Lemma fetch_accepts_array_of_non_arrays :
  let data := JArr [JNum 7; JArr [Fixture.G1]] in
  let net := Fixture.serve (Fixture.json_ok data) (Fixture.json_ok data) in
  array_of_arrays data = false
  ∧ outcome (fetchAggregatedTopGames net "http://feeds/ios" ())
    = inr [JNum 7; Fixture.G1].
Proof. split; reflexivity. Qed.

(** C5, amended: the validation is [Array.isArray] on the parsed body.  The
    fetcher rejects with the "expected an array" error exactly when the top
    level is not an array; for every array it resolves, whatever its items
    are. *)
Theorem fetch_rejects_non_array net url r data :
  net url = inr r → ok r = true → body r = Some data →
  (JS.isArray data = false →
     outcome (fetchAggregatedTopGames net url ())
     = inl (Error "Unexpected JSON structure: expected an array"))
  ∧ (∀ items, data = JArr items →
       outcome (fetchAggregatedTopGames net url ())
       = inr (fold_left (λ acc group, JS.concat acc group) items [])).
Proof.
  intros Hnet Hok Hbody.
  rewrite (fetch_parsed _ _ _ _ Hnet Hok Hbody).
  split.
  - intros Harr. by destruct data.
  - by intros items ->.
Qed.

Lemma fetch_rejects_non_array_witness :
  (JS.isArray Fixture.G1 = false →
     outcome (fetchAggregatedTopGames
                (Fixture.serve (Fixture.json_ok Fixture.G1) (inl (Rejection "down")))
                "http://feeds/ios" ())
     = inl (Error "Unexpected JSON structure: expected an array"))
  ∧ (∀ items, Fixture.G1 = JArr items →
       outcome (fetchAggregatedTopGames
                  (Fixture.serve (Fixture.json_ok Fixture.G1) (inl (Rejection "down")))
                  "http://feeds/ios" ())
       = inr (fold_left (λ acc group, JS.concat acc group) items [])).
Proof.
  apply (fetch_rejects_non_array _ "http://feeds/ios"
           {| status := 200; json_rejection := SyntaxError; body := Some Fixture.G1 |} Fixture.G1);
    reflexivity.
Defined.

(** C8: on a status outside 200-299 the fetcher rejects with the error that
    carries the status, and [response.json()] is not called. *)
Theorem fetch_rejects_http_failure net url r :
  net url = inr r → ¬ (200 ≤ status r ≤ 299) →
  let error := Error ("HTTP error! Status: " +:+ pretty (status r)) in
  fetchAggregatedTopGames net url () =
    (inl error, (),
     [Fetch url; ConsoleError "Failed to fetch or process top games:" error])
  ∧ Forall (λ ev, is_json_parse ev = false)
      (calls (fetchAggregatedTopGames net url ())).
Proof.
  intros Hnet Hstatus error.
  assert (Hok : ok r = false).
  { unfold ok. apply andb_false_iff. rewrite !Z.leb_gt. lia. }
  assert (Hrun : fetchAggregatedTopGames net url () =
                   (inl error, (),
                    [Fetch url;
                     ConsoleError "Failed to fetch or process top games:" error])).
  { run_chain. by rewrite Hnet, Hok. }
  split; [done|]. rewrite Hrun. unfold calls; cbn [snd].
  repeat constructor.
Qed.

Lemma fetch_rejects_http_failure_witness :
  fetchAggregatedTopGames (net Fixture.scenario_C) "http://feeds/ios" () =
    (inl (Error "HTTP error! Status: 404"), (),
     [Fetch "http://feeds/ios";
      ConsoleError "Failed to fetch or process top games:"
        (Error "HTTP error! Status: 404")]).
Proof.
  apply (fetch_rejects_http_failure (net Fixture.scenario_C) "http://feeds/ios"
           {| status := 404; json_rejection := SyntaxError; body := None |}).
  - reflexivity.
  - cbn. lia.
Defined.

(** ** The route, step by step *)

(** The fetcher makes no call to the persistence layer. *)
Lemma fetch_no_persistence_call net url :
  Forall (λ ev, is_persistence_call ev = false)
    (calls (fetchAggregatedTopGames net url ())).
Proof.
  run_chain. destruct (net url) as [e|r]; cbn; [by repeat constructor|].
  destruct (ok r); cbn; [|by repeat constructor].
  destruct (body r) as [data|]; cbn; [|by repeat constructor].
  destruct data; cbn; by repeat constructor.
Qed.

Lemma fetch_calls_no_persistence w iosUrl androidUrl :
  Forall (λ ev, is_persistence_call ev = false) (fetch_calls w iosUrl androidUrl).
Proof.
  unfold fetch_calls.
  destruct (ios_settles_first w); apply Forall_app; split;
    apply fetch_no_persistence_call.
Qed.

Lemma fetch_calls_no_insert w iosUrl androidUrl :
  Forall (λ ev, is_insert ev = false) (fetch_calls w iosUrl androidUrl).
Proof.
  eapply Forall_impl; [apply fetch_calls_no_persistence|].
  intros [] Hev; done.
Qed.

(** The calls of a run are those of the two fetches followed by a few
    explicit ones. *)
Ltac after_fetch_calls :=
  apply Forall_app; split;
  [ first [ apply fetch_calls_no_insert | apply fetch_calls_no_persistence ]
  | by repeat constructor ].

Section Steps.
Context {S : Type} (Game : GameModel S).

(** The callback of the join, as a decision tree. *)
Lemma on_feeds_run (ios android : list json) (st : S) :
  on_feeds Game ios android st =
    match JS.map (λ game, JS.get game "bundle_id") (ios ++ android) with
    | inl e => (inl e, st, [])
    | inr keys =>
        match findAll Game st keys with
        | inl e => (inl e, st, [FindAll keys])
        | inr existing =>
            match newGames (list_to_set existing) (ios ++ android) with
            | inl e => (inl e, st, [FindAll keys])
            | inr new =>
                if (length new =? 0)%nat
                then (inr no_new_games, st, [FindAll keys])
                else
                  match bulkCreate Game st new with
                  | (inl e, st') => (inl e, st', [FindAll keys; BulkCreate new])
                  | (inr _, st') =>
                      (inr (added (length new)), st',
                       [FindAll keys; BulkCreate new;
                        ConsoleLog ("Populated " +:+ pretty (length new) +:+ " new games.")
                          None])
                  end
            end
        end
    end.
Proof.
  unfold on_feeds, Game_findAll, Game_bulkCreate. cbn [JS.truthy negb].
  run_promise.
  destruct (JS.map _ _) as [e|keys]; [done|].
  destruct (findAll Game st keys) as [e|existing]; [done|]. cbn.
  destruct (newGames _ _) as [e|new]; [done|]. cbn.
  destruct (length new =? 0)%nat; [done|].
  destruct (bulkCreate Game st new) as [[e|[]] st']; done.
Qed.

(** The route when both URLs are configured. *)
Lemma populate_configured (w : world) (st : S) (iosUrl androidUrl : string) :
  JSON_URL_IOS (process_env w) = Some iosUrl → iosUrl ≠ "" →
  JSON_URL_ANDROID (process_env w) = Some androidUrl → androidUrl ≠ "" →
  populate Game w st =
    let fetched := fetch_calls w iosUrl androidUrl in
    match outcome (fetchAggregatedTopGames (net w) iosUrl ()),
          outcome (fetchAggregatedTopGames (net w) androidUrl ()) with
    | inr ios, inr android =>
        match on_feeds Game ios android st with
        | (inr r, st', t) => (inr r, st', fetched ++ t)
        | (inl e, st', t) => (inr failure, st', fetched ++ t ++ [populate_error_log e])
        end
    | inl e, inr _ | inr _, inl e => (inr failure, st, fetched ++ [populate_error_log e])
    | inl e1, inl e2 =>
        (inr failure, st,
         fetched ++ [populate_error_log (if ios_settles_first w then e1 else e2)])
    end.
Proof.
  intros Hios Hios' Handroid Handroid'.
  unfold populate, fetch_calls. rewrite Hios, Handroid. cbn [is_set default].
  apply String.eqb_neq in Hios', Handroid'. rewrite Hios', Handroid'.
  cbn [negb orb]. unfold Promise_all, id. run_promise.
  destruct (fetchAggregatedTopGames (net w) iosUrl ()) as [[r1 []] t1].
  destruct (fetchAggregatedTopGames (net w) androidUrl ()) as [[r2 []] t2].
  cbn [fst snd].
  destruct r1 as [e1|ios], r2 as [e2|android]; cbn -[on_feeds]; try done.
  destruct (on_feeds Game ios android st) as [[[e|r] st'] t]; cbn; [|done].
  by rewrite app_assoc.
Qed.

End Steps.

(** ** Callbacks that may throw *)

Section Callbacks.
Context {A B : Type}.

Lemma map_inr (f : A → Err B) (l : list A) (l' : list B) :
  JS.map f l = inr l' ↔ Forall2 (λ x y, f x = inr y) l l'.
Proof.
  revert l'. induction l as [|x l IH]; intros l'; cbn.
  - split.
    + intros [= <-]. constructor.
    + intros H. by inversion H.
  - destruct (f x) as [e|y] eqn:Hfx; cbn.
    + split; [done|]. intros H. inversion H; congruence.
    + destruct (JS.map f l) as [e|ys] eqn:Hmap; cbn.
      * split; [done|]. intros H. inversion H as [|? y' ? ys' Hy Hys]; subst.
        apply IH in Hys. discriminate Hys.
      * split.
        -- intros [= <-]. constructor; [done|]. by apply IH.
        -- intros H. inversion H as [|? y' ? ys' Hy Hys]; subst.
           apply IH in Hys. congruence.
Qed.

Lemma map_inl (f : A → Err B) (l : list A) (x : A) (e : js_error) :
  x ∈ l → f x = inl e → ∃ e', JS.map f l = inl e'.
Proof.
  intros Hx Hfx. induction Hx as [x l|x y l _ IH]; cbn.
  - rewrite Hfx. cbn. eauto.
  - destruct (f y) as [e'|z]; cbn; [eauto|].
    destruct (IH Hfx) as [e' ->]. cbn. eauto.
Qed.

Lemma filter_inr_elem (f : A → Err bool) (l l' : list A) :
  JS.filter f l = inr l' →
  Forall (λ x, ∃ b, f x = inr b) l
  ∧ ∀ x, x ∈ l' ↔ x ∈ l ∧ f x = inr true.
Proof.
  revert l'. induction l as [|x l IH]; intros l'; cbn.
  - intros [= <-]. split; [constructor|]. intros x.
    split; [intros Hx | intros [Hx _]]; by apply elem_of_nil in Hx.
  - destruct (f x) as [e|b] eqn:Hfx; cbn; [done|].
    destruct (JS.filter f l) as [e|kept] eqn:Hfilter; cbn; [done|].
    intros [= <-]. destruct (IH kept eq_refl) as [Hall Hkept].
    split; [constructor; eauto|].
    intros y. destruct b.
    + rewrite !elem_of_cons, Hkept. split.
      * intros [-> | [Hy Hfy]]; auto.
      * intros [[-> | Hy] Hfy]; auto.
    + rewrite elem_of_cons, Hkept. split.
      * intros [Hy Hfy]; auto.
      * intros [[-> | Hy] Hfy]; [congruence | auto].
Qed.

Lemma filter_none (f : A → Err bool) (l : list A) :
  Forall (λ x, f x = inr false) l → JS.filter f l = inr [].
Proof.
  induction 1 as [|x l Hx _ IH]; cbn; [done|]. by rewrite Hx, IH.
Qed.

Lemma filter_drop (f : A → Err bool) (l1 l2 : list A) (x : A) :
  f x = inr false → JS.filter f (l1 ++ x :: l2) = JS.filter f (l1 ++ l2).
Proof.
  intros Hx. induction l1 as [|y l1 IH]; cbn.
  - rewrite Hx. cbn. by destruct (JS.filter f l2).
  - by rewrite IH.
Qed.

End Callbacks.

(** ** The route: configuration and fetch failures *)

Section Failures.
Context {S : Type} (Game : GameModel S).

Lemma populate_not_set (w : world) (st : S) :
  is_set (JSON_URL_IOS (process_env w)) = false
  ∨ is_set (JSON_URL_ANDROID (process_env w)) = false →
  populate Game w st =
    (inr config_error, st,
     [ConsoleLog
        "***The file .env file is missing or incomplete (tip: run `cp .env.example .env`)"
        None]).
Proof.
  intros Hunset. unfold populate.
  assert (negb (is_set (JSON_URL_IOS (process_env w)))
          || negb (is_set (JSON_URL_ANDROID (process_env w))) = true) as ->.
  { apply orb_true_iff. rewrite !negb_true_iff. exact Hunset. }
  reflexivity.
Qed.

(** C9: when one of the two URLs is unset the route answers 500 with the
    configuration error, and calls neither the network nor the
    persistence layer. *)
Theorem populate_unset_url (w : world) (st : S) :
  JSON_URL_IOS (process_env w) = None ∨ JSON_URL_ANDROID (process_env w) = None →
  outcome (populate Game w st)
  = inr {| code := 500;
           sent := ErrorBody "Missing IOS_JSON_URL or ANDROID_JSON_URL in .env" |}
  ∧ store_after (populate Game w st) = st
  ∧ Forall (λ ev, is_network_call ev = false ∧ is_persistence_call ev = false)
      (calls (populate Game w st)).
Proof.
  intros Hunset. rewrite populate_not_set.
  - split_and!; [done..|]. by repeat constructor.
  - destruct Hunset as [-> | ->]; auto.
Qed.

(** C7: when one of the two fetches rejects, the route answers the generic
    500 failure; nothing but the two fetches and the error log happens, so
    the persistence layer is not called and the store is left as it was. *)
Theorem populate_fetch_rejected (w : world) (st : S) (iosUrl androidUrl : string) :
  JSON_URL_IOS (process_env w) = Some iosUrl → iosUrl ≠ "" →
  JSON_URL_ANDROID (process_env w) = Some androidUrl → androidUrl ≠ "" →
  (∃ e, outcome (fetchAggregatedTopGames (net w) iosUrl ()) = inl e)
  ∨ (∃ e, outcome (fetchAggregatedTopGames (net w) androidUrl ()) = inl e) →
  outcome (populate Game w st)
  = inr {| code := 500; sent := ErrorBody "Failed to populate database" |}
  ∧ store_after (populate Game w st) = st
  ∧ (∃ e, calls (populate Game w st)
          = fetch_calls w iosUrl androidUrl ++ [populate_error_log e])
  ∧ Forall (λ ev, is_persistence_call ev = false) (calls (populate Game w st)).
Proof.
  intros Hios Hios' Handroid Handroid' Hrejected.
  rewrite (populate_configured Game w st iosUrl androidUrl) by done.
  cbn zeta.
  assert (Hquiet : ∀ e, Forall (λ ev, is_persistence_call ev = false)
                          (fetch_calls w iosUrl androidUrl ++ [populate_error_log e])).
  { intros e. after_fetch_calls. }
  destruct (outcome (fetchAggregatedTopGames (net w) iosUrl ())) as [e1|ios];
    destruct (outcome (fetchAggregatedTopGames (net w) androidUrl ())) as [e2|android];
    unfold outcome, store_after, calls; cbn [fst snd]; eauto 10.
  destruct Hrejected as [[e He]|[e He]]; discriminate He.
Qed.

End Failures.

Lemma populate_unset_url_witness :
  outcome (populate spec_store Fixture.scenario_D [Fixture.persisted_G1])
  = inr {| code := 500;
           sent := ErrorBody "Missing IOS_JSON_URL or ANDROID_JSON_URL in .env" |}
  ∧ store_after (populate spec_store Fixture.scenario_D [Fixture.persisted_G1])
    = [Fixture.persisted_G1]
  ∧ Forall (λ ev, is_network_call ev = false ∧ is_persistence_call ev = false)
      (calls (populate spec_store Fixture.scenario_D [Fixture.persisted_G1])).
Proof.
  apply (populate_unset_url spec_store Fixture.scenario_D [Fixture.persisted_G1]).
  left. reflexivity.
Defined.

Lemma populate_fetch_rejected_witness :
  outcome (populate spec_store Fixture.scenario_C [])
  = inr {| code := 500; sent := ErrorBody "Failed to populate database" |}
  ∧ store_after (populate spec_store Fixture.scenario_C []) = []
  ∧ (∃ e, calls (populate spec_store Fixture.scenario_C [])
          = fetch_calls Fixture.scenario_C "http://feeds/ios" "http://feeds/android"
            ++ [populate_error_log e])
  ∧ Forall (λ ev, is_persistence_call ev = false)
      (calls (populate spec_store Fixture.scenario_C [])).
Proof.
  apply (populate_fetch_rejected spec_store Fixture.scenario_C []
           "http://feeds/ios" "http://feeds/android").
  - reflexivity.
  - discriminate.
  - reflexivity.
  - discriminate.
  - left. exists (Error "HTTP error! Status: 404"). reflexivity.
Defined.

(** ** The dedup filter *)

Lemma strict_eq_str_true (v : value) (s : string) :
  JS.strict_eq_str v s = true ↔ v = Some (JStr s).
Proof.
  destruct v as [[]|]; cbn; try (split; [discriminate | congruence]).
  rewrite String.eqb_eq. split; congruence.
Qed.

Lemma has_true (X : gset string) (v : value) :
  JS.has X v = true ↔ ∃ s, v = Some (JStr s) ∧ s ∈ X.
Proof.
  destruct v as [[]|]; cbn;
    try (split; [discriminate | by intros (? & [=] & _)]).
  rewrite bool_decide_eq_true. split; [eauto|]. by intros (? & [= <-] & ?).
Qed.

Lemma is_new_inr (X : gset string) (game : json) (b : bool) :
  is_new X game = inr b ↔
  ∃ bundle_id, JS.get game "bundle_id" = inr bundle_id
               ∧ b = JS.truthy bundle_id && negb (JS.has X bundle_id).
Proof.
  unfold is_new. destruct (JS.get game "bundle_id") as [e|bundle_id]; cbn.
  - split; [done|]. by intros (? & [=] & _).
  - destruct (JS.truthy bundle_id) eqn:Htruthy; cbn.
    + split.
      * intros [= <-]. exists bundle_id. by rewrite Htruthy.
      * intros (bundle_id' & [= <-] & ->). by rewrite Htruthy.
    + split.
      * intros [= <-]. exists bundle_id. by rewrite Htruthy.
      * intros (bundle_id' & [= <-] & ->). by rewrite Htruthy.
Qed.

(** What the [map] callback builds when it does not throw. *)
Lemma to_entity_inr (game : json) (e : GameEntity) :
  to_entity game = inr e →
  ∃ os app_id version,
    JS.get game "publisher_id" = inr (publisherId e)
    ∧ JS.get game "name" = inr (name e)
    ∧ JS.get game "os" = inr os
    ∧ platform e = (if JS.strict_eq_str os "ios" then "ios" else "android")
    ∧ JS.get game "app_id" = inr (Some app_id)
    ∧ JS.toString app_id = inr (storeId e)
    ∧ JS.get game "bundle_id" = inr (bundleId e)
    ∧ JS.get game "version" = inr version
    ∧ appVersion e = JS.or_else version (JStr "")
    ∧ isPublished e = true.
Proof.
  unfold to_entity.
  destruct (JS.get game "publisher_id") as [?|publisher_id]; cbn; [done|].
  destruct (JS.get game "name") as [?|name']; cbn; [done|].
  destruct (JS.get game "os") as [?|os]; cbn; [done|].
  destruct (JS.get game "app_id") as [?|[app_id|]]; cbn; [done| |done].
  destruct (JS.toString app_id) as [?|storeId'] eqn:Hstore; cbn; [done|].
  destruct (JS.get game "bundle_id") as [?|bundle_id]; cbn; [done|].
  destruct (JS.get game "version") as [?|version]; cbn; [done|].
  intros [= <-]. exists os, app_id, version. cbn. split_and!; done.
Qed.

(** Every entity of the output comes from a record the filter kept. *)
Lemma newGames_origin (X : gset string) (records : list json) (out : list GameEntity) :
  newGames X records = inr out →
  ∀ e, e ∈ out →
    ∃ record, record ∈ records
              ∧ is_new X record = inr true
              ∧ to_entity record = inr e.
Proof.
  unfold newGames.
  destruct (JS.filter (is_new X) records) as [?|kept] eqn:Hfilter; cbn; [done|].
  intros Hmap e He.
  apply map_inr in Hmap.
  apply list_elem_of_lookup in He as [i Hi].
  destruct (Forall2_lookup_r _ _ _ _ _ Hmap Hi) as (record & Hrecord & Hentity).
  apply list_elem_of_lookup_2 in Hrecord.
  apply (filter_inr_elem _ _ _ Hfilter) in Hrecord as [Hrecord Hnew].
  eauto.
Qed.

(** C1: the dedup filter emits no entity whose [bundleId] is empty, absent or
    among the existing keys, and a record whose [bundle_id] is empty, absent
    or known is dropped without any effect on the result: no error, and the
    other records are treated as if it were not there. *)
Theorem newGames_drops_known_and_empty (X : gset string) :
  (∀ records out, newGames X records = inr out →
     ∀ e, e ∈ out →
       JS.truthy (bundleId e) = true
       ∧ bundleId e ≠ None ∧ bundleId e ≠ Some JNull ∧ bundleId e ≠ Some (JStr "")
       ∧ JS.has X (bundleId e) = false
       ∧ ∀ s, bundleId e = Some (JStr s) → s ∉ X)
  ∧ (∀ before record after bundle_id,
       JS.get record "bundle_id" = inr bundle_id →
       JS.truthy bundle_id = false ∨ JS.has X bundle_id = true →
       newGames X (before ++ record :: after) = newGames X (before ++ after)).
Proof.
  split.
  - intros records out Hout e He.
    destruct (newGames_origin _ _ _ Hout e He) as (record & _ & Hnew & Hentity).
    apply to_entity_inr in Hentity
      as (os & app_id & version & _ & _ & _ & _ & _ & _ & Hbundle & _).
    apply is_new_inr in Hnew as (bundle_id & Hget & Hkept).
    rewrite Hbundle in Hget. injection Hget as Hget. subst bundle_id.
    symmetry in Hkept. apply andb_true_iff in Hkept as [Htruthy Hfresh].
    apply negb_true_iff in Hfresh.
    split_and!; try done; try (intros Heq; rewrite Heq in Htruthy; discriminate).
    intros s Hs Hin.
    assert (JS.has X (bundleId e) = true) by (apply has_true; eauto).
    congruence.
  - intros before record after bundle_id Hget Hdrop.
    unfold newGames. rewrite filter_drop; [done|].
    apply is_new_inr. exists bundle_id. split; [done|].
    destruct Hdrop as [-> | ->]; [done|]. by rewrite andb_false_r.
Qed.




Lemma newGames_drops_known_and_empty_witness :
  let X : gset string := {["b"]} in
  (JS.truthy (bundleId Fixture.persisted_G1) = true
   ∧ bundleId Fixture.persisted_G1 ≠ None
   ∧ bundleId Fixture.persisted_G1 ≠ Some JNull
   ∧ bundleId Fixture.persisted_G1 ≠ Some (JStr "")
   ∧ JS.has X (bundleId Fixture.persisted_G1) = false
   ∧ ∀ s, bundleId Fixture.persisted_G1 = Some (JStr s) → s ∉ X)
  ∧ newGames X ([Fixture.G1] ++ Fixture.G2 :: [Fixture.no_bundle_id])
    = newGames X ([Fixture.G1] ++ [Fixture.no_bundle_id])
  ∧ newGames X ([Fixture.G1] ++ Fixture.no_bundle_id :: [Fixture.G2])
    = newGames X ([Fixture.G1] ++ [Fixture.G2]).
Proof.
  intros X. destruct (newGames_drops_known_and_empty X) as [Hemitted Hdropped].
  split; [|split].
  - apply (Hemitted [Fixture.G1; Fixture.G2; Fixture.no_bundle_id]
             [Fixture.persisted_G1]).
    + vm_compute. reflexivity.
    + apply list_elem_of_here.
  - apply (Hdropped [Fixture.G1] Fixture.G2 [Fixture.no_bundle_id] (Some (JStr "b"))).
    + reflexivity.
    + right. vm_compute. reflexivity.
  - apply (Hdropped [Fixture.G1] Fixture.no_bundle_id [Fixture.G2] None).
    + reflexivity.
    + left. reflexivity.
Defined.


(** ** The route: lookup, filter and batch insert *)

Section Persist.
Context {S : Type} (Game : GameModel S).

(** C6: when both fetches resolve, the existing-key lookup answers and the
    dedup filter yields [new]: with [new] empty the route answers 200 with
    the no-op message and makes no insert; otherwise it makes exactly one
    [bulkCreate] call, with all of [new], and, the insert having succeeded,
    answers 201 with [added] the length of [new]. *)
Theorem populate_inserts_new_games (w : world) (st : S) (iosUrl androidUrl : string)
    (ios android : list json) (keys : list value) (existing : list string)
    (new : list GameEntity) :
  JSON_URL_IOS (process_env w) = Some iosUrl → iosUrl ≠ "" →
  JSON_URL_ANDROID (process_env w) = Some androidUrl → androidUrl ≠ "" →
  outcome (fetchAggregatedTopGames (net w) iosUrl ()) = inr ios →
  outcome (fetchAggregatedTopGames (net w) androidUrl ()) = inr android →
  JS.map (λ game, JS.get game "bundle_id") (ios ++ android) = inr keys →
  findAll Game st keys = inr existing →
  newGames (list_to_set existing) (ios ++ android) = inr new →
  let run := populate Game w st in
  (new = [] →
     outcome run = inr {| code := 200; sent := MessageBody "No new games to add." |}
     ∧ store_after run = st
     ∧ Forall (λ ev, is_insert ev = false) (calls run))
  ∧ (new ≠ [] →
       List.filter is_insert (calls run) = [BulkCreate new]
       ∧ store_after run = (bulkCreate Game st new).2
       ∧ ((bulkCreate Game st new).1 = inr () →
            outcome run = inr {| code := 201; sent := AddedBody (length new) |})).
Proof.
  intros Hios Hios' Handroid Handroid' Hfetch_ios Hfetch_android Hkeys Hexisting Hnew run.
  pose proof (fetch_calls_no_insert w iosUrl androidUrl) as Hquiet.
  assert (Hnone : List.filter is_insert (fetch_calls w iosUrl androidUrl) = []).
  { induction Hquiet as [|ev t Hev _ IH]; cbn; [done|]. by rewrite Hev. }
  subst run. rewrite (populate_configured Game w st iosUrl androidUrl) by done.
  cbn zeta. rewrite Hfetch_ios, Hfetch_android, on_feeds_run.
  rewrite Hkeys, Hexisting, Hnew.
  split.
  - intros ->. cbn. split_and!; [done..|].
    after_fetch_calls.
  - intros Hsome.
    assert ((length new =? 0)%nat = false) as ->.
    { apply Nat.eqb_neq. by destruct new. }
    destruct (bulkCreate Game st new) as [[e|[]] st']; cbn;
      rewrite List.filter_app, Hnone; cbn; split_and!; done.
Qed.

End Persist.

Lemma populate_inserts_new_games_witness :
  let run := populate spec_store Fixture.scenario_A [] in
  ([Fixture.persisted_G1] = [] →
     outcome run = inr {| code := 200; sent := MessageBody "No new games to add." |}
     ∧ store_after run = []
     ∧ Forall (λ ev, is_insert ev = false) (calls run))
  ∧ ([Fixture.persisted_G1] ≠ [] →
       List.filter is_insert (calls run) = [BulkCreate [Fixture.persisted_G1]]
       ∧ store_after run = (bulkCreate spec_store [] [Fixture.persisted_G1]).2
       ∧ ((bulkCreate spec_store [] [Fixture.persisted_G1]).1 = inr () →
            outcome run = inr {| code := 201; sent := AddedBody 1 |})).
Proof.
  apply (populate_inserts_new_games spec_store Fixture.scenario_A []
           "http://feeds/ios" "http://feeds/android" [Fixture.G1] []
           [Some (JStr "a")] []);
    first [ discriminate | vm_compute; reflexivity ].
Defined.

(** ** The route: a record without app_id *)

Lemma to_entity_without_app_id (game : json) :
  JS.get game "app_id" = inr None → to_entity game = inl TypeError.
Proof.
  intros Happ. unfold to_entity.
  destruct game; try discriminate Happ; cbn in *; try done.
  injection Happ as ->. done.
Qed.

Lemma newGames_throws (X : gset string) (records : list json) (game : json)
    (e : js_error) :
  game ∈ records → is_new X game = inr true → to_entity game = inl e →
  ∃ e', newGames X records = inl e'.
Proof.
  intros Hgame Hnew Hthrows. unfold newGames.
  destruct (JS.filter (is_new X) records) as [e'|kept] eqn:Hfilter; cbn; [eauto|].
  apply (map_inl to_entity kept game e); [|done].
  apply (filter_inr_elem _ _ _ Hfilter). done.
Qed.

Section MissingAppId.
Context {S : Type} (Game : GameModel S).

(** C10: a record whose [bundle_id] is non-empty and not among the existing
    keys, and which has no [app_id], makes the whole run answer the generic
    500 failure: nothing is inserted, the record is not dropped. *)
Theorem populate_fails_without_app_id (w : world) (st : S)
    (iosUrl androidUrl : string) (ios android : list json) (game : json)
    (bundle_id : value) :
  JSON_URL_IOS (process_env w) = Some iosUrl → iosUrl ≠ "" →
  JSON_URL_ANDROID (process_env w) = Some androidUrl → androidUrl ≠ "" →
  outcome (fetchAggregatedTopGames (net w) iosUrl ()) = inr ios →
  outcome (fetchAggregatedTopGames (net w) androidUrl ()) = inr android →
  game ∈ ios ++ android →
  JS.get game "bundle_id" = inr bundle_id →
  JS.truthy bundle_id = true →
  (∀ keys existing,
     JS.map (λ game, JS.get game "bundle_id") (ios ++ android) = inr keys →
     findAll Game st keys = inr existing →
     JS.has (list_to_set existing) bundle_id = false) →
  JS.get game "app_id" = inr None →
  let run := populate Game w st in
  outcome run = inr {| code := 500; sent := ErrorBody "Failed to populate database" |}
  ∧ store_after run = st
  ∧ Forall (λ ev, is_insert ev = false) (calls run).
Proof.
  intros Hios Hios' Handroid Handroid' Hfetch_ios Hfetch_android Hgame Hbundle
    Htruthy Hunknown Happ run.
  subst run. rewrite (populate_configured Game w st iosUrl androidUrl) by done.
  cbn zeta. rewrite Hfetch_ios, Hfetch_android, on_feeds_run.
  destruct (JS.map _ (ios ++ android)) as [e|keys] eqn:Hkeys.
  { cbn. split_and!; [done..|]. after_fetch_calls. }
  destruct (findAll Game st keys) as [e|existing] eqn:Hexisting.
  { cbn. split_and!; [done..|]. after_fetch_calls. }
  destruct (newGames_throws (list_to_set existing) (ios ++ android) game TypeError)
    as [e ->]; [done| |by apply to_entity_without_app_id|].
  { apply is_new_inr. exists bundle_id. split; [done|].
    by rewrite Htruthy, (Hunknown keys existing). }
  cbn. split_and!; [done..|]. after_fetch_calls.
Qed.

End MissingAppId.

Lemma populate_fails_without_app_id_witness :
  let run := populate spec_store Fixture.scenario_no_app_id [] in
  outcome run = inr {| code := 500; sent := ErrorBody "Failed to populate database" |}
  ∧ store_after run = []
  ∧ Forall (λ ev, is_insert ev = false) (calls run).
Proof.
  apply (populate_fails_without_app_id spec_store Fixture.scenario_no_app_id []
           "http://feeds/ios" "http://feeds/android" [Fixture.no_app_id] []
           Fixture.no_app_id (Some (JStr "a")));
    try discriminate; try reflexivity.
  - apply list_elem_of_here.
  - intros keys existing _ [= <-]. reflexivity.
Defined.

(** ** Running the route twice *)

Lemma elem_of_findAllExisting (st : list GameEntity) (keys : list value) (s : string) :
  s ∈ findAllExisting st keys ↔
  ∃ row, row ∈ st ∧ bundleId row = Some (JStr s) ∧ Some (JStr s) ∈ keys.
Proof.
  unfold findAllExisting. rewrite list_elem_of_omap. split.
  - intros (row & Hrow & Hs). exists row. split; [done|].
    destruct (bundleId row) as [[]|]; try discriminate Hs.
    destruct (existsb _ keys) eqn:Hkey; [|discriminate Hs].
    injection Hs as ->. split; [done|].
    apply existsb_exists in Hkey as (key & Hin & Heq).
    apply strict_eq_str_true in Heq as ->. by apply list_elem_of_In.
  - intros (row & Hrow & Hbundle & Hkey). exists row. split; [done|].
    rewrite Hbundle.
    assert (existsb (λ key, JS.strict_eq_str key s) keys = true) as ->; [|done].
    apply existsb_exists. exists (Some (JStr s)). split.
    + by apply list_elem_of_In.
    + by apply strict_eq_str_true.
Qed.

(** The callback of the join against the store of the specification. *)
Lemma on_feeds_spec_store (ios android : list json) (st : list GameEntity) :
  on_feeds spec_store ios android st =
    match JS.map (λ game, JS.get game "bundle_id") (ios ++ android) with
    | inl e => (inl e, st, [])
    | inr keys =>
        match newGames (list_to_set (findAllExisting st keys)) (ios ++ android) with
        | inl e => (inl e, st, [FindAll keys])
        | inr new =>
            if (length new =? 0)%nat
            then (inr no_new_games, st, [FindAll keys])
            else (inr (added (length new)), st ++ new,
                  [FindAll keys; BulkCreate new;
                   ConsoleLog ("Populated " +:+ pretty (length new) +:+ " new games.")
                     None])
        end
    end.
Proof.
  rewrite on_feeds_run. destruct (JS.map _ _) as [e|keys]; [done|]. cbn.
  destruct (newGames _ _) as [e|new]; [done|].
  by destruct (length new =? 0)%nat.
Qed.

(** Once the new games of a run are in the store, the same feeds hold no new
    game. *)
Lemma newGames_after_insert (st : list GameEntity) (topGames : list json)
    (keys : list value) (new : list GameEntity) :
  forallb bundle_id_typed topGames = true →
  JS.map (λ game, JS.get game "bundle_id") topGames = inr keys →
  newGames (list_to_set (findAllExisting st keys)) topGames = inr new →
  newGames (list_to_set (findAllExisting (st ++ new) keys)) topGames = inr [].
Proof.
  intros Htyped Hkeys Hnew. unfold newGames.
  rewrite (filter_none (is_new _) topGames); [done|].
  apply Forall_forall. intros game Hgame.
  apply map_inr in Hkeys.
  apply list_elem_of_lookup in Hgame as Hi. destruct Hi as [i Hi].
  destruct (Forall2_lookup_l _ _ _ _ _ Hkeys Hi) as (bundle_id & Hkey & Hget).
  apply list_elem_of_lookup_2 in Hkey.
  apply is_new_inr. exists bundle_id. split; [done|].
  destruct (JS.truthy bundle_id) eqn:Htruthy; [|done]. cbn.
  symmetry. apply negb_false_iff.
  rewrite forallb_forall in Htyped.
  specialize (Htyped game (proj1 (list_elem_of_In _ _) Hgame)).
  unfold bundle_id_typed in Htyped. rewrite Hget in Htyped.
  destruct bundle_id as [[| | |s| |]|]; try discriminate Htyped;
    try discriminate Htruthy.
  cbn. apply bool_decide_eq_true. rewrite elem_of_list_to_set.
  apply elem_of_findAllExisting.
  destruct (JS.has (list_to_set (findAllExisting st keys)) (Some (JStr s))) eqn:Hknown.
  - cbn in Hknown. apply bool_decide_eq_true in Hknown.
    rewrite elem_of_list_to_set in Hknown.
    apply elem_of_findAllExisting in Hknown as (row & Hrow & Hbundle & _).
    exists row. rewrite elem_of_app. auto.
  - assert (Hkept : is_new (list_to_set (findAllExisting st keys)) game = inr true).
    { apply is_new_inr. exists (Some (JStr s)). split; [done|].
      by rewrite Htruthy, Hknown. }
    unfold newGames in Hnew.
    destruct (JS.filter _ topGames) as [?|kept] eqn:Hfilter; [done|]. cbn in Hnew.
    assert (Hin : game ∈ kept) by (by apply (filter_inr_elem _ _ _ Hfilter)).
    apply map_inr in Hnew.
    apply list_elem_of_lookup in Hin as [j Hj].
    destruct (Forall2_lookup_l _ _ _ _ _ Hnew Hj) as (row & Hrow & Hentity).
    apply list_elem_of_lookup_2 in Hrow.
    apply to_entity_inr in Hentity
      as (os & app_id & version & _ & _ & _ & _ & _ & _ & Hbundle & _).
    exists row. rewrite elem_of_app. split_and!; [auto| |done]. congruence.
Qed.

(** C4, as stated, fails: when the first run fails on a record, the second
    run fails in the same way and does not answer the no-op message. *)
Lemma second_run_fails_again :
  let w := Fixture.scenario_no_app_id in
  let first := populate spec_store w [] in
  let second := populate spec_store w (store_after first) in
  outcome (fetchAggregatedTopGames (net w) "http://feeds/ios" ())
  = inr [Fixture.no_app_id]
  ∧ outcome (fetchAggregatedTopGames (net w) "http://feeds/android" ()) = inr []
  ∧ outcome second = inr {| code := 500; sent := ErrorBody "Failed to populate database" |}
  ∧ outcome second ≠ inr {| code := 200; sent := MessageBody "No new games to add." |}.
Proof. vm_compute. split_and!; [reflexivity..|discriminate]. Qed.

(** C4, amended: for feed outputs whose records carry a string, [null] or
    no [bundle_id], against the store of the specification, the second of
    two runs inserts nothing; it answers the no-op message whenever the
    first run did not fail, and fails like the first run otherwise. *)
Theorem populate_twice (w : world) (st : list GameEntity)
    (iosUrl androidUrl : string) (ios android : list json) :
  JSON_URL_IOS (process_env w) = Some iosUrl → iosUrl ≠ "" →
  JSON_URL_ANDROID (process_env w) = Some androidUrl → androidUrl ≠ "" →
  outcome (fetchAggregatedTopGames (net w) iosUrl ()) = inr ios →
  outcome (fetchAggregatedTopGames (net w) androidUrl ()) = inr android →
  forallb bundle_id_typed (ios ++ android) = true →
  let first := populate spec_store w st in
  let second := populate spec_store w (store_after first) in
  store_after second = store_after first
  ∧ Forall (λ ev, is_insert ev = false) (calls second)
  ∧ (outcome first ≠ inr {| code := 500; sent := ErrorBody "Failed to populate database" |} →
       outcome second = inr {| code := 200; sent := MessageBody "No new games to add." |})
  ∧ (outcome first = inr {| code := 500; sent := ErrorBody "Failed to populate database" |} →
       outcome second = outcome first).
Proof.
  intros Hios Hios' Handroid Handroid' Hfetch_ios Hfetch_android Htyped first second.
  assert (Hrun : ∀ st', populate spec_store w st' =
            match on_feeds spec_store ios android st' with
            | (inr r, st'', t) => (inr r, st'', fetch_calls w iosUrl androidUrl ++ t)
            | (inl e, st'', t) =>
                (inr failure, st'', fetch_calls w iosUrl androidUrl ++ t ++ [populate_error_log e])
            end).
  { intros st'. rewrite (populate_configured spec_store w st' iosUrl androidUrl) by done.
    cbn zeta. by rewrite Hfetch_ios, Hfetch_android. }
  subst first second. rewrite (Hrun st), on_feeds_spec_store.
  destruct (JS.map _ (ios ++ android)) as [e|keys] eqn:Hkeys.
  { cbn [store_after fst snd]. rewrite (Hrun st), on_feeds_spec_store, Hkeys. cbn.
    split_and!; try done. after_fetch_calls. }
  destruct (newGames (list_to_set (findAllExisting st keys)) (ios ++ android))
    as [e|new] eqn:Hnew.
  { cbn [store_after fst snd]. rewrite (Hrun st), on_feeds_spec_store, Hkeys, Hnew. cbn.
    split_and!; try done. after_fetch_calls. }
  destruct new as [|entity new].
  { cbn [length Nat.eqb store_after fst snd].
    rewrite (Hrun st), on_feeds_spec_store, Hkeys, Hnew. cbn.
    split_and!; try done. after_fetch_calls. }
  cbn [length Nat.eqb store_after fst snd].
  rewrite (Hrun (st ++ entity :: new)), on_feeds_spec_store, Hkeys.
  rewrite (newGames_after_insert st (ios ++ android) keys (entity :: new)) by done.
  cbn. split_and!; try done. after_fetch_calls.
Qed.

Lemma populate_twice_witness :
  let w := Fixture.with_feeds (Fixture.json_ok (JArr [JArr [Fixture.G1; Fixture.no_bundle_id]]))
             (Fixture.json_ok (JArr [JArr [Fixture.G2; Fixture.G1]])) in
  let first := populate spec_store w [Fixture.persisted_G1] in
  let second := populate spec_store w (store_after first) in
  store_after second = store_after first
  ∧ Forall (λ ev, is_insert ev = false) (calls second)
  ∧ (outcome first ≠ inr {| code := 500; sent := ErrorBody "Failed to populate database" |} →
       outcome second = inr {| code := 200; sent := MessageBody "No new games to add." |})
  ∧ (outcome first = inr {| code := 500; sent := ErrorBody "Failed to populate database" |} →
       outcome second = outcome first).
Proof.
  intros w.
  apply (populate_twice w [Fixture.persisted_G1] "http://feeds/ios" "http://feeds/android"
           [Fixture.G1; Fixture.no_bundle_id] [Fixture.G2; Fixture.G1]);
    first [ discriminate | vm_compute; reflexivity ].
Defined.

(** ** The route always answers *)

(** Whatever the environment, the network and the persistence layer do, a
    run ends with one reply: the [catch] turns every rejection into the 500
    failure. *)
Lemma populate_always_replies {S : Type} (Game : GameModel S) (w : world) (st : S) :
  ∃ r, outcome (populate Game w st) = inr r.
Proof.
  destruct (is_set (JSON_URL_IOS (process_env w))) eqn:Hios;
    [|rewrite populate_not_set by auto; eauto].
  destruct (is_set (JSON_URL_ANDROID (process_env w))) eqn:Handroid;
    [|rewrite populate_not_set by auto; eauto].
  destruct (JSON_URL_IOS (process_env w)) as [iosUrl|] eqn:Hi; [|done].
  destruct (JSON_URL_ANDROID (process_env w)) as [androidUrl|] eqn:Ha; [|done].
  cbn in Hios, Handroid. apply negb_true_iff, String.eqb_neq in Hios, Handroid.
  rewrite (populate_configured Game w st iosUrl androidUrl) by done. cbn zeta.
  destruct (outcome (fetchAggregatedTopGames (net w) iosUrl ())) as [e1|ios];
    destruct (outcome (fetchAggregatedTopGames (net w) androidUrl ())) as [e2|android];
    try (unfold outcome; cbn; eauto; fail).
  destruct (on_feeds Game ios android st) as [[[e|r] st'] t];
    unfold outcome; cbn; eauto.
Qed.

(** ** The scenarios of the specification *)

(** Scenario B: every bundle id of the feeds is already in the store. *)
Example scenario_B_run :
  let w := Fixture.with_feeds (Fixture.json_ok (JArr [JArr [Fixture.G1]]))
             (Fixture.json_ok (JArr [JArr [Fixture.G1]; JArr []])) in
  let run := populate spec_store w [Fixture.persisted_G1] in
  outcome run = inr {| code := 200; sent := MessageBody "No new games to add." |}
  ∧ store_after run = [Fixture.persisted_G1]
  ∧ List.filter is_insert (calls run) = [].
Proof. vm_compute. split_and!; reflexivity. Qed.

(** Scenario C: the iOS feed answers 404. *)
Example scenario_C_run :
  populate spec_store Fixture.scenario_C [] =
    (inr {| code := 500; sent := ErrorBody "Failed to populate database" |},
     [],
     [Fetch "http://feeds/ios";
      ConsoleError "Failed to fetch or process top games:"
        (Error "HTTP error! Status: 404");
      Fetch "http://feeds/android";
      ResponseJson {| status := 200; json_rejection := SyntaxError; body := Some (JArr [JArr [Fixture.G2]]) |};
      ConsoleLog "***There was an error populating games"
        (Some (Error "HTTP error! Status: 404"))]).
Proof. vm_compute. reflexivity. Qed.

(** Scenario D: [JSON_URL_IOS] is unset. *)
Example scenario_D_run :
  populate spec_store Fixture.scenario_D [] =
    (inr {| code := 500;
            sent := ErrorBody "Missing IOS_JSON_URL or ANDROID_JSON_URL in .env" |},
     [],
     [ConsoleLog
        "***The file .env file is missing or incomplete (tip: run `cp .env.example .env`)"
        None]).
Proof. vm_compute. reflexivity. Qed.

(** A [bundle_id] that is a number is outside the data model: the lookup,
    which answers strings, never reports it, and the record is inserted
    again by every run. *)
Example numeric_bundle_id_inserted_twice :
  let game := JObj [("bundle_id", JNum 5); ("app_id", JNum 1)] in
  let w := Fixture.with_feeds (Fixture.json_ok (JArr [JArr [game]]))
             (Fixture.json_ok (JArr [])) in
  let first := populate spec_store w [] in
  let second := populate spec_store w (store_after first) in
  bundle_id_typed game = false
  ∧ outcome first = inr {| code := 201; sent := AddedBody 1 |}
  ∧ outcome second = inr {| code := 201; sent := AddedBody 1 |}
  ∧ length (store_after second) = 2%nat.
Proof. vm_compute. split_and!; reflexivity. Qed.

(** ** More on the feed fetcher *)

Lemma reduce_concat_one_level (groups : list json) (acc : list json) :
  fold_left (λ acc group, JS.concat acc group) groups acc
  = acc ++ flat_map one_level groups.
Proof.
  revert acc. induction groups as [|g groups IH]; intros acc; cbn.
  - by rewrite app_nil_r.
  - rewrite IH. unfold JS.concat, one_level.
    destruct g; by rewrite <- app_assoc.
Qed.

(** Every way the fetcher can run, by what the network answers. *)
Lemma fetch_run net url :
  fetchAggregatedTopGames net url () =
    let log := ConsoleError "Failed to fetch or process top games:" in
    match net url with
    | inl e => (inl e, (), [Fetch url; log e])
    | inr r =>
        if ok r then
          match body r with
          | None =>
              (inl (json_rejection r), (),
               [Fetch url; ResponseJson r; log (json_rejection r)])
          | Some (JArr groups) =>
              (inr (flat_map one_level groups), (), [Fetch url; ResponseJson r])
          | Some _ =>
              let error := Error "Unexpected JSON structure: expected an array" in
              (inl error, (), [Fetch url; ResponseJson r; log error])
          end
        else
          let error := Error ("HTTP error! Status: " +:+ pretty (status r)) in
          (inl error, (), [Fetch url; log error])
    end.
Proof.
  run_chain. destruct (net url) as [e|r]; cbn; [done|].
  destruct (ok r); cbn; [|done].
  destruct (body r) as [data|]; cbn; [|done].
  destruct data; cbn; try done.
  by rewrite reduce_concat_one_level.
Qed.

(** The flattening goes one level deep, and no deeper: each item of the body
    that is an array contributes its items as they are (arrays among them
    stay arrays), each other item contributes itself. *)
Theorem fetch_flattens_one_level net url r (groups : list json) :
  net url = inr r → ok r = true → body r = Some (JArr groups) →
  outcome (fetchAggregatedTopGames net url ()) = inr (flat_map one_level groups)
  ∧ length (flat_map one_level groups)
    = sum_list ((λ item, length (one_level item)) <$> groups).
Proof.
  intros Hnet Hok Hbody. rewrite fetch_run, Hnet, Hok, Hbody. split; [done|].
  clear. induction groups as [|g groups IH]; cbn; [done|].
  by rewrite length_app, IH.
Qed.

Lemma fetch_flattens_one_level_witness :
  let data := JArr [JArr [JArr [Fixture.G1]; Fixture.G2]; JNum 3; JArr []] in
  outcome (fetchAggregatedTopGames
             (Fixture.serve (Fixture.json_ok data) (inl (Rejection "down")))
             "http://feeds/ios" ())
  = inr (flat_map one_level [JArr [JArr [Fixture.G1]; Fixture.G2]; JNum 3; JArr []])
  ∧ length (flat_map one_level [JArr [JArr [Fixture.G1]; Fixture.G2]; JNum 3; JArr []])
    = sum_list ((λ item, length (one_level item))
                  <$> [JArr [JArr [Fixture.G1]; Fixture.G2]; JNum 3; JArr []]).
Proof.
  intros data.
  apply (fetch_flattens_one_level _ "http://feeds/ios"
           {| status := 200; json_rejection := SyntaxError; body := Some data |}); reflexivity.
Defined.

(** The fetcher resolves exactly when the network answers a success status
    with a body that is a JSON array; in every other case it rejects. *)
Theorem fetch_resolves_iff net url :
  (∃ games, outcome (fetchAggregatedTopGames net url ()) = inr games)
  ↔ ∃ r groups, net url = inr r ∧ ok r = true ∧ body r = Some (JArr groups).
Proof.
  rewrite fetch_run. cbn zeta. split.
  - intros [games Hgames].
    destruct (net url) as [e|r]; [done|].
    destruct (ok r) eqn:Hok; [|done].
    destruct (body r) as [[]|] eqn:Hbody; try done. eauto.
  - intros (r & groups & -> & -> & ->). eauto.
Qed.

(** A rejection is logged once with [console.error] and passed on unchanged,
    as the last thing the fetcher does; a run that resolves logs nothing. *)
Theorem fetch_logs_what_it_rethrows net url :
  let run := fetchAggregatedTopGames net url () in
  match outcome run with
  | inl e =>
      List.filter is_console_error (calls run)
      = [ConsoleError "Failed to fetch or process top games:" e]
      ∧ last (calls run) = Some (ConsoleError "Failed to fetch or process top games:" e)
  | inr _ => List.filter is_console_error (calls run) = []
  end.
Proof.
  cbn zeta. rewrite fetch_run. cbn zeta.
  destruct (net url) as [e|r]; [done|].
  destruct (ok r); [|done].
  destruct (body r) as [[]|]; done.
Qed.

(** Why the fetcher rejects, and with what: the rejection of [fetch] itself,
    unchanged; the HTTP error that carries the status, for a status outside
    200-299; the rejection of [response.json()], unchanged, when the body
    gives no JSON value (a [SyntaxError] for a body that is not JSON, a
    [TypeError] for one that cannot be read); the "expected an array" error,
    for a body that is not an array.  There is no other rejection. *)
Theorem fetch_rejects_iff net url (e : js_error) :
  outcome (fetchAggregatedTopGames net url ()) = inl e
  ↔ net url = inl e
    ∨ ∃ r, net url = inr r
           ∧ ((ok r = false
               ∧ e = Error ("HTTP error! Status: " +:+ pretty (status r)))
              ∨ (ok r = true ∧ body r = None ∧ e = json_rejection r)
              ∨ (ok r = true
                 ∧ (∃ data, body r = Some data ∧ JS.isArray data = false)
                 ∧ e = Error "Unexpected JSON structure: expected an array")).
Proof.
  rewrite fetch_run. cbn zeta. unfold outcome. split.
  - destruct (net url) as [e'|r] eqn:Hnet; cbn; [intros [= ->]; by left|].
    destruct (ok r) eqn:Hok; cbn.
    + destruct (body r) as [data|] eqn:Hbody; cbn.
      * destruct data; cbn; try discriminate;
          (intros [= <-]; right; exists r; split; [done|]; right; right;
           split_and!; eauto).
      * intros [= <-]. right. exists r. split; [done|]. right. left. done.
    + intros [= <-]. right. exists r. split; [done|]. left. done.
  - intros [-> | (r & -> & [(-> & ->) | [(-> & -> & ->) | (-> & (data & -> & Harr) & ->)]])];
      cbn; try done.
    by destruct data.
Qed.

(** One call of the fetcher is one request: [fetch] is called once, first,
    and the body is read at most once; there is no retry. *)
Theorem fetch_single_request net url :
  let run := fetchAggregatedTopGames net url () in
  List.filter is_network_call (calls run) = [Fetch url]
  ∧ head (calls run) = Some (Fetch url)
  ∧ (length (List.filter is_json_parse (calls run)) ≤ 1)%nat.
Proof.
  cbn zeta. rewrite fetch_run. cbn zeta.
  destruct (net url) as [e|r]; [cbn; auto|].
  destruct (ok r); [|cbn; auto].
  destruct (body r) as [[]|]; cbn; auto.
Qed.

(** ** More on the dedup filter *)

Section CallbackLists.
Context {A B : Type}.

Lemma map_app (f : A → Err B) (l1 l2 : list A) :
  JS.map f (l1 ++ l2) = (a ← JS.map f l1; b ← JS.map f l2; inr (a ++ b)).
Proof.
  induction l1 as [|x l1 IH]; cbn.
  - by destruct (JS.map f l2).
  - destruct (f x) as [e|y]; cbn; [done|]. rewrite IH.
    destruct (JS.map f l1) as [e|a]; cbn; [done|].
    by destruct (JS.map f l2).
Qed.

Lemma filter_app (f : A → Err bool) (l1 l2 : list A) :
  JS.filter f (l1 ++ l2) = (a ← JS.filter f l1; b ← JS.filter f l2; inr (a ++ b)).
Proof.
  induction l1 as [|x l1 IH]; cbn.
  - by destruct (JS.filter f l2).
  - destruct (f x) as [e|keep]; cbn; [done|]. rewrite IH.
    destruct (JS.filter f l1) as [e|a]; cbn; [done|].
    destruct (JS.filter f l2) as [e|b]; cbn; [done|].
    by destruct keep.
Qed.

Lemma map_defined (f : A → Err B) (l : list A) :
  (∃ l', JS.map f l = inr l') ↔ Forall (λ x, ∃ y, f x = inr y) l.
Proof.
  induction l as [|x l IH]; cbn.
  - split; [constructor | eauto].
  - rewrite Forall_cons, <- IH. destruct (f x) as [e|y]; cbn.
    + split; [by intros [? ?] | by intros [[? ?] _]].
    + destruct (JS.map f l) as [e|l']; cbn.
      * split; [by intros [? ?] | by intros [_ [? ?]]].
      * split; eauto.
Qed.

Lemma filter_defined (f : A → Err bool) (l : list A) :
  (∃ l', JS.filter f l = inr l') ↔ Forall (λ x, ∃ b, f x = inr b) l.
Proof.
  induction l as [|x l IH]; cbn.
  - split; [constructor | eauto].
  - rewrite Forall_cons, <- IH. destruct (f x) as [e|b]; cbn.
    + split; [by intros [? ?] | by intros [[? ?] _]].
    + destruct (JS.filter f l) as [e|l']; cbn.
      * split; [by intros [? ?] | by intros [_ [? ?]]].
      * split; eauto.
Qed.

End CallbackLists.

(** The keys of the records the filter keeps are the keys the predicate
    keeps, in the same order. *)
Lemma filter_keys (X : gset string) (records kept : list json) (keys : list value) :
  Forall2 (λ game key, JS.get game "bundle_id" = inr key) records keys →
  JS.filter (is_new X) records = inr kept →
  Forall2 (λ game key, JS.get game "bundle_id" = inr key) kept
    (List.filter (kept_by X) keys).
Proof.
  intros Hkeys. revert kept.
  induction Hkeys as [|game key records keys Hkey _ IH]; intros kept; cbn.
  - intros [= <-]. constructor.
  - assert (is_new X game = inr (kept_by X key)) as ->.
    { apply is_new_inr. eauto. }
    cbn. destruct (JS.filter (is_new X) records) as [e|kept']; cbn; [done|].
    intros [= <-]. specialize (IH kept' eq_refl).
    destruct (kept_by X key); [by constructor | done].
Qed.

(** The output follows the input: the [bundleId]s of the entities are the
    [bundle_id]s of the records, in feed order, less the empty and the known
    ones.  Nothing is reordered and nothing is merged: a new bundle id that
    occurs twice in the input occurs twice in the output. *)
Theorem newGames_bundle_ids (X : gset string) (records : list json)
    (keys : list value) (out : list GameEntity) :
  JS.map (λ game, JS.get game "bundle_id") records = inr keys →
  newGames X records = inr out →
  bundleId <$> out = List.filter (kept_by X) keys
  ∧ (length out ≤ length records)%nat.
Proof.
  intros Hkeys Hout. apply map_inr in Hkeys.
  assert (Hids : bundleId <$> out = List.filter (kept_by X) keys).
  { unfold newGames in Hout.
    destruct (JS.filter (is_new X) records) as [e|kept] eqn:Hfilter; [done|].
    cbn in Hout. apply map_inr in Hout.
    pose proof (filter_keys X records kept keys Hkeys Hfilter) as Hkept.
    clear Hfilter Hkeys. revert Hkept. generalize (List.filter (kept_by X) keys).
    induction Hout as [|game e kept out Hentity _ IH]; intros ks Hks.
    - by inversion Hks.
    - inversion Hks as [|? k ? ks' Hk Hks']; subst. cbn.
      apply to_entity_inr in Hentity
        as (os & app_id & version & _ & _ & _ & _ & _ & _ & Hbundle & _).
      rewrite (IH ks' Hks'). congruence. }
  split; [done|].
  rewrite <- (length_fmap bundleId out), Hids.
  rewrite (Forall2_length _ _ _ Hkeys).
  apply List.filter_length_le.
Qed.

Lemma newGames_bundle_ids_witness :
  bundleId <$> [Fixture.persisted_G1; Fixture.persisted_G1]
  = List.filter (kept_by {["b"]})
      [Some (JStr "a"); None; Some (JStr "b"); Some (JStr "a")]
  ∧ (length [Fixture.persisted_G1; Fixture.persisted_G1]
     ≤ length [Fixture.G1; Fixture.no_bundle_id; Fixture.G2; Fixture.G1])%nat.
Proof.
  apply (newGames_bundle_ids {["b"]}
           [Fixture.G1; Fixture.no_bundle_id; Fixture.G2; Fixture.G1]);
    vm_compute; reflexivity.
Defined.

(** The filter treats each record on its own: the new games of two feeds put
    end to end are the new games of the first followed by those of the
    second. *)
Theorem newGames_app (X : gset string) (ios android : list json)
    (out : list GameEntity) :
  newGames X (ios ++ android) = inr out
  ↔ ∃ out_ios out_android,
      newGames X ios = inr out_ios
      ∧ newGames X android = inr out_android
      ∧ out = out_ios ++ out_android.
Proof.
  unfold newGames. rewrite filter_app.
  destruct (JS.filter (is_new X) ios) as [e|kept1]; cbn.
  { split; [done|]. by intros (? & ? & ? & _). }
  destruct (JS.filter (is_new X) android) as [e|kept2]; cbn.
  { split; [done|]. by intros (? & ? & _ & ? & _). }
  rewrite map_app.
  destruct (JS.map to_entity kept1) as [e|out1]; cbn.
  { split; [done|]. by intros (? & ? & ? & _). }
  destruct (JS.map to_entity kept2) as [e|out2]; cbn.
  { split; [done|]. by intros (? & ? & _ & ? & _). }
  split.
  - intros [= <-]. eauto.
  - by intros (? & ? & [= <-] & [= <-] & ->).
Qed.

Lemma to_entity_defined (game : json) :
  (∃ e, to_entity game = inr e)
  ↔ ∃ app_id s, JS.get game "app_id" = inr (Some app_id) ∧ JS.toString app_id = inr s.
Proof.
  split.
  - intros [e He]. apply to_entity_inr in He
      as (os & app_id & version & _ & _ & _ & _ & Happ & Hstore & _). eauto.
  - intros (app_id & s & Happ & Hstore). unfold to_entity.
    destruct game; try discriminate Happ; cbn in *;
      try (injection Happ as Happ; try rewrite Happ; cbn);
      try rewrite Hstore; cbn; eauto.
Qed.

(** When the filter throws: it returns a sequence exactly when no record is
    [null] and every record it keeps has an [app_id] that [toString] can
    print.  A record it drops is never converted, so its [app_id] does not
    matter. *)
Theorem newGames_defined_iff (X : gset string) (records : list json) :
  (∃ out, newGames X records = inr out)
  ↔ Forall (λ game,
              ∃ bundle_id,
                JS.get game "bundle_id" = inr bundle_id
                ∧ (kept_by X bundle_id = true →
                     ∃ app_id s, JS.get game "app_id" = inr (Some app_id)
                                 ∧ JS.toString app_id = inr s)) records.
Proof.
  rewrite Forall_forall. split.
  - intros [out Hout] game Hgame. unfold newGames in Hout.
    destruct (JS.filter (is_new X) records) as [e|kept] eqn:Hfilter; [done|].
    cbn in Hout.
    destruct (filter_inr_elem _ _ _ Hfilter) as [Hall Hkept].
    rewrite Forall_forall in Hall.
    destruct (Hall game Hgame) as [b Hb].
    apply is_new_inr in Hb as (bundle_id & Hget & ->).
    exists bundle_id. split; [done|]. intros Hnew.
    apply to_entity_defined.
    assert (Hin : game ∈ kept).
    { apply Hkept. split; [done|].
      apply is_new_inr. exists bundle_id. unfold kept_by in Hnew. by rewrite Hnew. }
    assert (Hdefined : ∃ out', JS.map to_entity kept = inr out') by eauto.
    apply map_defined in Hdefined. rewrite Forall_forall in Hdefined.
    by apply Hdefined.
  - intros Hrecords. unfold newGames.
    destruct (proj2 (filter_defined (is_new X) records)) as [kept Hfilter].
    { apply Forall_forall. intros game Hgame.
      destruct (Hrecords game Hgame) as (bundle_id & Hget & _).
      exists (kept_by X bundle_id). apply is_new_inr. eauto. }
    rewrite Hfilter. cbn. apply map_defined, Forall_forall.
    intros game Hgame. apply to_entity_defined.
    apply (filter_inr_elem _ _ _ Hfilter) in Hgame as [Hgame Hnew].
    destruct (Hrecords game Hgame) as (bundle_id & Hget & Happ).
    apply Happ. apply is_new_inr in Hnew as (bundle_id' & Hget' & Hnew).
    unfold kept_by. congruence.
Qed.

(** ** More on the route *)

Lemma fetch_calls_filter_persistence w iosUrl androidUrl :
  List.filter is_persistence_call (fetch_calls w iosUrl androidUrl) = [].
Proof.
  pose proof (fetch_calls_no_persistence w iosUrl androidUrl) as Hquiet.
  induction Hquiet as [|ev t Hev _ IH]; cbn; [done|]. by rewrite Hev.
Qed.

Lemma fetch_calls_filter_insert w iosUrl androidUrl :
  List.filter is_insert (fetch_calls w iosUrl androidUrl) = [].
Proof.
  pose proof (fetch_calls_no_insert w iosUrl androidUrl) as Hquiet.
  induction Hquiet as [|ev t Hev _ IH]; cbn; [done|]. by rewrite Hev.
Qed.

(** Either a URL is not set, or both are and name a non-empty string. *)
Lemma configured_or_not (w : world) :
  (is_set (JSON_URL_IOS (process_env w)) = false
   ∨ is_set (JSON_URL_ANDROID (process_env w)) = false)
  ∨ ∃ iosUrl androidUrl,
      JSON_URL_IOS (process_env w) = Some iosUrl ∧ iosUrl ≠ ""
      ∧ JSON_URL_ANDROID (process_env w) = Some androidUrl ∧ androidUrl ≠ "".
Proof.
  destruct (JSON_URL_IOS (process_env w)) as [iosUrl|]; [|by left; left].
  destruct (JSON_URL_ANDROID (process_env w)) as [androidUrl|]; [|by left; right].
  destruct (is_set (Some iosUrl)) eqn:Hios; [|by left; left].
  destruct (is_set (Some androidUrl)) eqn:Handroid; [|by left; right].
  right. exists iosUrl, androidUrl. cbn in Hios, Handroid.
  apply negb_true_iff, String.eqb_neq in Hios, Handroid. done.
Qed.

(** Splits a goal about [populate Game w st] along the paths of the route. *)
Ltac populate_paths Game w st :=
  let iosUrl := fresh "iosUrl" in
  let androidUrl := fresh "androidUrl" in
  destruct (configured_or_not w)
    as [Hunset | (iosUrl & androidUrl & Hios & Hios' & Handroid & Handroid')];
  [ rewrite (populate_not_set Game w st Hunset)
  | rewrite (populate_configured Game w st iosUrl androidUrl Hios Hios' Handroid Handroid');
    cbn zeta;
    destruct (outcome (fetchAggregatedTopGames (net w) iosUrl ())) as [?e|?ios];
    destruct (outcome (fetchAggregatedTopGames (net w) androidUrl ())) as [?e|?android];
    try rewrite on_feeds_run;
    try (destruct (JS.map _ (_ ++ _)) as [?e|?keys];
         [| destruct (findAll Game st _) as [?e|?existing];
            [| destruct (newGames _ _) as [?e|[|?entity ?new]];
               [| | cbn [length Nat.eqb];
                    destruct (bulkCreate Game st _) as [[?e|[]] ?st'] eqn:?Hinsert ] ] ]) ].

Section Paths.
Context {S : Type} (Game : GameModel S).

(** The reply "No new games to add (no data available)." is never sent: the
    test [!topGames] is on an array, which is always truthy, so even two
    empty feeds go on to the lookup. *)
Theorem populate_never_no_data (w : world) (st : S) :
  outcome (populate Game w st)
  ≠ inr {| code := 200; sent := MessageBody "No new games to add (no data available)." |}.
Proof.
  populate_paths Game w st; unfold outcome; cbn; discriminate.
Qed.

(** The store is touched by the batch insert and by nothing else, and 201
    is answered exactly for a batch insert that succeeded: a run either makes
    no [bulkCreate] call, leaves the store as it was and answers the
    configuration error, the failure or the no-op message; or it makes one
    [bulkCreate] call, with a non-empty batch, leaves the store that call
    leaves, and answers 201 with the size of the batch if the call succeeded
    and the failure if it did not. *)
Theorem populate_reply_and_store (w : world) (st : S) :
  let run := populate Game w st in
  (List.filter is_insert (calls run) = []
   ∧ store_after run = st
   ∧ (outcome run = inr config_error
      ∨ outcome run = inr failure
      ∨ outcome run = inr no_new_games))
  ∨ ∃ new,
      new ≠ []
      ∧ List.filter is_insert (calls run) = [BulkCreate new]
      ∧ store_after run = (bulkCreate Game st new).2
      ∧ match (bulkCreate Game st new).1 with
        | inr _ => outcome run = inr {| code := 201; sent := AddedBody (length new) |}
        | inl _ => outcome run = inr failure
        end.
Proof.
  cbn zeta.
  populate_paths Game w st; unfold outcome, store_after, calls;
    cbn -[fetch_calls];
    rewrite ?List.filter_app, ?fetch_calls_filter_insert; cbn -[fetch_calls];
    try (left; split_and!; [done..|]; auto; fail);
    right; eexists (_ :: _); rewrite Hinsert; cbn; split_and!; done.
Qed.

End Paths.

Lemma fetch_calls_with_order_filter (b : bool) w iosUrl androidUrl :
  List.filter is_persistence_call (fetch_calls (with_order b w) iosUrl androidUrl)
  = List.filter is_persistence_call (fetch_calls w iosUrl androidUrl).
Proof. by rewrite !fetch_calls_filter_persistence. Qed.

Section MorePaths.
Context {S : Type} (Game : GameModel S).

(** The order in which the two fetches settle shows in the log only: the
    reply, the store and the calls to the persistence layer are the same
    whichever fetch settles first. *)
Theorem populate_settle_order (ios_first : bool) (w : world) (st : S) :
  let run := populate Game w st in
  let run' := populate Game (with_order ios_first w) st in
  outcome run' = outcome run
  ∧ store_after run' = store_after run
  ∧ List.filter is_persistence_call (calls run')
    = List.filter is_persistence_call (calls run).
Proof.
  cbn zeta.
  destruct (configured_or_not w)
    as [Hunset | (iosUrl & androidUrl & Hios & Hios' & Handroid & Handroid')].
  - by rewrite (populate_not_set Game w st Hunset),
      (populate_not_set Game (with_order ios_first w) st Hunset).
  - rewrite (populate_configured Game w st iosUrl androidUrl) by done.
    rewrite (populate_configured Game (with_order ios_first w) st iosUrl androidUrl)
      by done.
    cbn [net with_order]. cbn zeta.
    destruct (outcome (fetchAggregatedTopGames (net w) iosUrl ())) as [e1|ios];
      destruct (outcome (fetchAggregatedTopGames (net w) androidUrl ())) as [e2|android];
      try (destruct (on_feeds Game ios android st) as [[[e|r] st'] t]);
      unfold outcome, store_after, calls; cbn -[fetch_calls];
      rewrite !List.filter_app, !fetch_calls_filter_persistence; done.
Qed.

(** The lookup rejects: the run answers the generic failure, the rejection is
    logged, no insert is attempted and the store is as it was. *)
Theorem populate_lookup_rejected (w : world) (st : S) (iosUrl androidUrl : string)
    (ios android : list json) (keys : list value) (e : js_error) :
  JSON_URL_IOS (process_env w) = Some iosUrl → iosUrl ≠ "" →
  JSON_URL_ANDROID (process_env w) = Some androidUrl → androidUrl ≠ "" →
  outcome (fetchAggregatedTopGames (net w) iosUrl ()) = inr ios →
  outcome (fetchAggregatedTopGames (net w) androidUrl ()) = inr android →
  JS.map (λ game, JS.get game "bundle_id") (ios ++ android) = inr keys →
  findAll Game st keys = inl e →
  populate Game w st =
    (inr {| code := 500; sent := ErrorBody "Failed to populate database" |}, st,
     fetch_calls w iosUrl androidUrl
     ++ [FindAll keys; ConsoleLog "***There was an error populating games" (Some e)]).
Proof.
  intros Hios Hios' Handroid Handroid' Hfetch_ios Hfetch_android Hkeys Hlookup.
  rewrite (populate_configured Game w st iosUrl androidUrl) by done. cbn zeta.
  by rewrite Hfetch_ios, Hfetch_android, on_feeds_run, Hkeys, Hlookup.
Qed.

(** The batch insert rejects: the call was made with all the new games, the
    run answers the generic failure and not 201, and the store is whatever
    the rejected call left. *)
Theorem populate_insert_rejected (w : world) (st st' : S) (iosUrl androidUrl : string)
    (ios android : list json) (keys : list value) (existing : list string)
    (new : list GameEntity) (e : js_error) :
  JSON_URL_IOS (process_env w) = Some iosUrl → iosUrl ≠ "" →
  JSON_URL_ANDROID (process_env w) = Some androidUrl → androidUrl ≠ "" →
  outcome (fetchAggregatedTopGames (net w) iosUrl ()) = inr ios →
  outcome (fetchAggregatedTopGames (net w) androidUrl ()) = inr android →
  JS.map (λ game, JS.get game "bundle_id") (ios ++ android) = inr keys →
  findAll Game st keys = inr existing →
  newGames (list_to_set existing) (ios ++ android) = inr new → new ≠ [] →
  bulkCreate Game st new = (inl e, st') →
  populate Game w st =
    (inr {| code := 500; sent := ErrorBody "Failed to populate database" |}, st',
     fetch_calls w iosUrl androidUrl
     ++ [FindAll keys; BulkCreate new;
         ConsoleLog "***There was an error populating games" (Some e)]).
Proof.
  intros Hios Hios' Handroid Handroid' Hfetch_ios Hfetch_android Hkeys Hlookup
    Hnew Hsome Hinsert.
  rewrite (populate_configured Game w st iosUrl androidUrl) by done. cbn zeta.
  rewrite Hfetch_ios, Hfetch_android, on_feeds_run, Hkeys, Hlookup, Hnew.
  destruct new as [|entity new]; [done|]. cbn [length Nat.eqb].
  by rewrite Hinsert.
Qed.

(** A [null] among the records of either feed stops the run before the
    lookup: reading its [bundle_id] throws, the run answers the generic
    failure and the persistence layer is not called at all. *)
Theorem populate_null_record (w : world) (st : S) (iosUrl androidUrl : string)
    (ios android : list json) :
  JSON_URL_IOS (process_env w) = Some iosUrl → iosUrl ≠ "" →
  JSON_URL_ANDROID (process_env w) = Some androidUrl → androidUrl ≠ "" →
  outcome (fetchAggregatedTopGames (net w) iosUrl ()) = inr ios →
  outcome (fetchAggregatedTopGames (net w) androidUrl ()) = inr android →
  JNull ∈ ios ++ android →
  populate Game w st =
    (inr {| code := 500; sent := ErrorBody "Failed to populate database" |}, st,
     fetch_calls w iosUrl androidUrl
     ++ [ConsoleLog "***There was an error populating games" (Some TypeError)])
  ∧ List.filter is_persistence_call (calls (populate Game w st)) = [].
Proof.
  intros Hios Hios' Handroid Handroid' Hfetch_ios Hfetch_android Hnull.
  assert (Hthrows : JS.map (λ game, JS.get game "bundle_id") (ios ++ android)
                    = inl TypeError).
  { clear -Hnull. induction (ios ++ android) as [|game records IH]; cbn.
    - by apply elem_of_nil in Hnull.
    - apply elem_of_cons in Hnull as [<- | Hnull]; [done|].
      destruct (JS.get game "bundle_id") as [e|key] eqn:Hget; cbn.
      + destruct game; cbn in Hget; congruence.
      + by rewrite (IH Hnull). }
  assert (Hrun : populate Game w st =
            (inr failure, st,
             fetch_calls w iosUrl androidUrl ++ [populate_error_log TypeError])).
  { rewrite (populate_configured Game w st iosUrl androidUrl) by done. cbn zeta.
    by rewrite Hfetch_ios, Hfetch_android, on_feeds_run, Hthrows. }
  split; [done|]. rewrite Hrun. unfold calls; cbn [snd].
  by rewrite List.filter_app, fetch_calls_filter_persistence.
Qed.

(** Two feeds without a record: the lookup is still made, with no key, and
    when it answers the run replies the no-op message without any insert. *)
Theorem populate_empty_feeds (w : world) (st : S) (iosUrl androidUrl : string) :
  JSON_URL_IOS (process_env w) = Some iosUrl → iosUrl ≠ "" →
  JSON_URL_ANDROID (process_env w) = Some androidUrl → androidUrl ≠ "" →
  outcome (fetchAggregatedTopGames (net w) iosUrl ()) = inr [] →
  outcome (fetchAggregatedTopGames (net w) androidUrl ()) = inr [] →
  let run := populate Game w st in
  List.filter is_persistence_call (calls run) = [FindAll []]
  ∧ store_after run = st
  ∧ ((∃ existing, findAll Game st [] = inr existing) →
       outcome run = inr {| code := 200; sent := MessageBody "No new games to add." |}).
Proof.
  intros Hios Hios' Handroid Handroid' Hfetch_ios Hfetch_android. cbn zeta.
  rewrite (populate_configured Game w st iosUrl androidUrl) by done. cbn zeta.
  rewrite Hfetch_ios, Hfetch_android, on_feeds_run. cbn [app JS.map mbind err_bind].
  destruct (findAll Game st []) as [e|existing];
    unfold outcome, store_after, calls; cbn -[fetch_calls];
    rewrite List.filter_app, fetch_calls_filter_persistence; cbn.
  - split_and!; [done..|]. by intros [? ?].
  - done.
Qed.

End MorePaths.

Lemma populate_lookup_rejected_witness :
  let down : GameModel (list GameEntity) :=
    {| findAll st keys := inl (Rejection "SQLITE_BUSY");
       bulkCreate st entities := (inr (), st ++ entities) |} in
  populate down Fixture.scenario_A [] =
    (inr {| code := 500; sent := ErrorBody "Failed to populate database" |}, [],
     fetch_calls Fixture.scenario_A "http://feeds/ios" "http://feeds/android"
     ++ [FindAll [Some (JStr "a")];
         ConsoleLog "***There was an error populating games"
           (Some (Rejection "SQLITE_BUSY"))]).
Proof.
  intros down.
  apply (populate_lookup_rejected down Fixture.scenario_A []
           "http://feeds/ios" "http://feeds/android" [Fixture.G1] []);
    first [ discriminate | vm_compute; reflexivity ].
Defined.

Lemma populate_insert_rejected_witness :
  let read_only : GameModel (list GameEntity) :=
    {| findAll st keys := inr (findAllExisting st keys);
       bulkCreate st entities := (inl (Rejection "SQLITE_READONLY"), st) |} in
  populate read_only Fixture.scenario_A [] =
    (inr {| code := 500; sent := ErrorBody "Failed to populate database" |}, [],
     fetch_calls Fixture.scenario_A "http://feeds/ios" "http://feeds/android"
     ++ [FindAll [Some (JStr "a")]; BulkCreate [Fixture.persisted_G1];
         ConsoleLog "***There was an error populating games"
           (Some (Rejection "SQLITE_READONLY"))]).
Proof.
  intros read_only.
  apply (populate_insert_rejected read_only Fixture.scenario_A [] []
           "http://feeds/ios" "http://feeds/android" [Fixture.G1] []
           [Some (JStr "a")] []);
    first [ discriminate | vm_compute; reflexivity ].
Defined.

Lemma populate_null_record_witness :
  let w := Fixture.with_feeds (Fixture.json_ok (JArr [JArr [Fixture.G1]; JNull]))
             (Fixture.json_ok (JArr [])) in
  populate spec_store w [] =
    (inr {| code := 500; sent := ErrorBody "Failed to populate database" |}, [],
     fetch_calls w "http://feeds/ios" "http://feeds/android"
     ++ [ConsoleLog "***There was an error populating games" (Some TypeError)])
  ∧ List.filter is_persistence_call (calls (populate spec_store w [])) = [].
Proof.
  intros w.
  apply (populate_null_record spec_store w [] "http://feeds/ios" "http://feeds/android"
           [Fixture.G1; JNull] []);
    try discriminate; try reflexivity.
  apply list_elem_of_further, list_elem_of_here.
Defined.

Lemma populate_empty_feeds_witness :
  let w := Fixture.with_feeds (Fixture.json_ok (JArr [])) (Fixture.json_ok (JArr [JArr []])) in
  let run := populate spec_store w [Fixture.persisted_G1] in
  List.filter is_persistence_call (calls run) = [FindAll []]
  ∧ store_after run = [Fixture.persisted_G1]
  ∧ ((∃ existing, findAll spec_store [Fixture.persisted_G1] [] = inr existing) →
       outcome run = inr {| code := 200; sent := MessageBody "No new games to add." |}).
Proof.
  intros w.
  apply (populate_empty_feeds spec_store w [Fixture.persisted_G1]
           "http://feeds/ios" "http://feeds/android");
    try discriminate; reflexivity.
Defined.


(** ** The other routes *)

Ltac run_route :=
  unfold Crud.get_games, Crud.post_game, Crud.delete_game, Crud.put_game,
    Crud.search_games, Crud.Game_findAll, Crud.Game_create, Crud.Game_findByPk,
    Crud.game_destroy, Crud.game_update, Crud.handle, Crud.record, Crud.sync,
    Crud.outcome, Crud.store_after, Crud.calls,
    mbind, Crud.chain_bind, mret, Crud.chain_ret, mthrow, Crud.chain_throw in *;
  cbn [fst snd] in *.

Lemma normalize_not_text (rt : Crud.Runtime) (v : value) :
  Crud.not_text v = true → Crud.normalize rt v = inl TypeError.
Proof.
  unfold Crud.normalize, Crud.not_text.
  destruct v as [[| b | n | s | items | props]|]; cbn; try done.
  - by intros ->.
  - intros Hn. by rewrite Hn.
Qed.

Lemma read_fields_same_keys (body body' : json) :
  Forall (λ key, JS.get body key = JS.get body' key) Crud.copied_keys →
  Crud.read_fields body = Crud.read_fields body'.
Proof.
  unfold Crud.copied_keys, Crud.read_fields. rewrite !Forall_cons.
  intros (-> & -> & -> & -> & -> & -> & -> & _). done.
Qed.

Section OtherRoutes.
Context {S Row : Type} (rt : Crud.Runtime) (db : Crud.Table S Row).

(** Search: a name without a platform is refused with 400 before any query;
    a platform that is missing, empty or blank counts as none. *)
Theorem search_name_without_platform (body : json) (st : S)
    (name platform : value) (n : string) :
  JS.get body "name" = inr name → JS.get body "platform" = inr platform →
  Crud.normalize rt platform = inr "" → Crud.normalize rt name = inr n → n ≠ "" →
  Crud.search_games rt db body st =
    (inr (Crud.Build_answer 400
            (Crud.ErrorMessage "Platform is required when name is provided")),
     st, []).
Proof.
  intros Hname Hplatform Hp Hn Hsome. run_route.
  rewrite Hname, Hplatform, Hp, Hn. cbn.
  apply String.eqb_neq in Hsome. unfold Crud.non_empty. by rewrite Hsome.
Qed.

(** Search: a name or a platform that is truthy and not a string (a number,
    [true], an array, an object) has no [trim]; the route throws before any
    query and sends nothing itself. *)
Theorem search_not_text_throws (body : json) (st : S) (name platform : value) :
  JS.get body "name" = inr name → JS.get body "platform" = inr platform →
  Crud.not_text platform = true ∨ Crud.not_text name = true →
  Crud.search_games rt db body st = (inl TypeError, st, []).
Proof.
  intros Hname Hplatform Hnot. run_route. rewrite Hname, Hplatform. cbn.
  destruct (Crud.normalize rt platform) as [e|p] eqn:Hp; cbn.
  - destruct Hnot as [Hnot|Hnot].
    + rewrite (normalize_not_text rt platform Hnot) in Hp. congruence.
    + unfold Crud.normalize in Hp.
      destruct (JS.or_else platform (JStr "")); congruence.
  - destruct Hnot as [Hnot|Hnot].
    + rewrite (normalize_not_text rt platform Hnot) in Hp. congruence.
    + by rewrite (normalize_not_text rt name Hnot).
Qed.

(** Search: in every other case one query is made; it filters on the
    normalized platform when there is one and on the pattern [%name%] when
    there is a name, and on nothing at all for an empty body.  The games
    found are sent with 200; a rejection is logged and sent with 400. *)
Theorem search_query (body : json) (st : S) (name platform : value) (n p : string) :
  JS.get body "name" = inr name → JS.get body "platform" = inr platform →
  Crud.normalize rt platform = inr p → Crud.normalize rt name = inr n →
  n = "" ∨ p ≠ "" →
  let query :=
    {| Crud.where_platform := if String.eqb p "" then None else Some p;
       Crud.where_name_like := if String.eqb n "" then None else Some ("%" +:+ n +:+ "%") |} in
  Crud.search_games rt db body st =
    match Crud.findAll db st (Some query) with
    | inr games =>
        (inr (Crud.Build_answer 200 (Crud.Games games)), st, [Crud.FindAll (Some query)])
    | inl e =>
        (inr (Crud.Build_answer 400 (Crud.Failed e)), st,
         [Crud.FindAll (Some query);
          Crud.Log "***There was an error searching games using where=" (Some query) e])
    end.
Proof.
  intros Hname Hplatform Hp Hn Hcase query. run_route.
  rewrite Hname, Hplatform, Hp, Hn. cbn. unfold Crud.non_empty.
  assert (negb (String.eqb n "") && negb (negb (String.eqb p "")) = false) as ->.
  { destruct Hcase as [-> | Hp']; [done|].
    apply String.eqb_neq in Hp'. rewrite Hp'. by rewrite andb_false_r. }
  subst query.
  destruct (String.eqb p ""), (String.eqb n ""); cbn;
    by destruct (Crud.findAll db st _).
Qed.

(** Search only reads: whatever the body, it leaves the store as it is,
    makes no [create], [destroy] or [update], and at most one query. *)
Theorem search_reads_only (body : json) (st : S) :
  let run := Crud.search_games rt db body st in
  Crud.store_after run = st
  ∧ Forall (λ c, Crud.is_write c = false) (Crud.calls run)
  ∧ (length (List.filter Crud.is_table_call (Crud.calls run)) ≤ 1)%nat.
Proof.
  cbn zeta. run_route.
  destruct (JS.get body "name") as [e|name]; cbn; [by auto|].
  destruct (JS.get body "platform") as [e|platform]; cbn; [by auto|].
  destruct (Crud.normalize rt platform) as [e|p]; cbn; [by auto|].
  destruct (Crud.normalize rt name) as [e|n]; cbn; [by auto|].
  destruct (Crud.non_empty n && negb (Crud.non_empty p)); cbn; [by auto|].
  destruct (Crud.findAll db st _); cbn; split_and!; auto.
Qed.

(** Delete of an id that has no row: [findByPk] resolves with [null], the
    call of [destroy] on it throws, and the route answers 400 with that
    error; nothing is destroyed. *)
Theorem delete_game_missing (params_id : string) (st : S) :
  Crud.findByPk db st (Crud.parseInt rt params_id) = inr None →
  Crud.delete_game rt db params_id st =
    (inr (Crud.Build_answer 400 (Crud.Failed TypeError)), st,
     [Crud.FindByPk (Crud.parseInt rt params_id);
      Crud.Log "***There was an error deleting game" None TypeError]).
Proof. intros Hfind. run_route. by rewrite Hfind. Qed.

(** Delete always answers: 200 with the parsed id when the row was found and
    destroyed, the store being what [destroy] left; 400 with the error in
    every other case. *)
Theorem delete_game_answers (params_id : string) (st : S) :
  let id := Crud.parseInt rt params_id in
  let run := Crud.delete_game rt db params_id st in
  (Crud.outcome run = inr (Crud.Build_answer 200 (Crud.Id id))
   ∧ ∃ game, Crud.findByPk db st id = inr (Some game)
             ∧ Crud.destroy db st game = (inr (), Crud.store_after run))
  ∨ ∃ e, Crud.outcome run = inr (Crud.Build_answer 400 (Crud.Failed e))
         ∧ (Crud.findByPk db st id = inl e
            ∨ (Crud.findByPk db st id = inr None ∧ e = TypeError)
            ∨ ∃ game, Crud.findByPk db st id = inr (Some game)
                      ∧ (Crud.destroy db st game).1 = inl e).
Proof.
  cbn zeta. run_route.
  destruct (Crud.findByPk db st (Crud.parseInt rt params_id)) as [e|[game|]] eqn:Hfind;
    cbn.
  - right. exists e. auto.
  - destruct (Crud.destroy db st game) as [[e|[]] st'] eqn:Hdestroy; cbn.
    + right. exists e. split; [done|]. right. right. exists game.
      by rewrite Hdestroy.
    + left. split; [done|]. exists game. by rewrite Hdestroy.
  - right. exists TypeError. auto.
Qed.

(** Put of an id that has no row: the callback of [findByPk] throws on
    [null] outside the only [catch] of the route, so nothing is sent, not
    even an error, and nothing is updated. *)
Theorem put_game_missing (params_id : string) (body : json) (st : S) :
  Crud.findByPk db st (Crud.parseInt rt params_id) = inr None →
  Crud.put_game rt db params_id body st =
    (inl TypeError, st, [Crud.FindByPk (Crud.parseInt rt params_id)]).
Proof.
  intros Hfind. run_route. rewrite Hfind. cbn.
  destruct (Crud.read_fields body) as [e|f] eqn:Hfields; cbn; [|done].
  unfold Crud.read_fields in Hfields.
  destruct body; cbn in Hfields; unfold mret, err_ret in Hfields; congruence.
Qed.

(** Put answers exactly when the row is found and the body can be
    destructured; the answer is then 200 or, when the update rejects, 400. *)
Theorem put_game_answers_iff (params_id : string) (body : json) (st : S) :
  let run := Crud.put_game rt db params_id body st in
  (∃ a, Crud.outcome run = inr a)
  ↔ ∃ game f,
      Crud.findByPk db st (Crud.parseInt rt params_id) = inr (Some game)
      ∧ Crud.read_fields body = inr f
      ∧ match Crud.update db st game f with
        | (inr game', st') =>
            run = (inr (Crud.Build_answer 200 (Crud.Game game')), st',
                   [Crud.FindByPk (Crud.parseInt rt params_id); Crud.Update game f])
        | (inl e, st') =>
            run = (inr (Crud.Build_answer 400 (Crud.Failed e)), st',
                   [Crud.FindByPk (Crud.parseInt rt params_id); Crud.Update game f;
                    Crud.Log "***There was an error updating game" None e])
        end.
Proof.
  cbn zeta. run_route.
  destruct (Crud.findByPk db st (Crud.parseInt rt params_id)) as [e|found]; cbn.
  { split; [by intros [? ?] | by intros (? & ? & ? & _)]. }
  destruct (Crud.read_fields body) as [e|f]; cbn.
  { split; [by intros [? ?] | by intros (? & ? & _ & ? & _)]. }
  destruct found as [game|]; cbn.
  - split; [|by destruct (Crud.update db st game f) as [[e|game'] st']; cbn; eauto].
    intros _. exists game, f. split_and!; [done..|].
    by destruct (Crud.update db st game f) as [[e|game'] st'].
  - split; [by intros [? ?] | by intros (? & ? & ? & _)].
Qed.

(** Post and put pass on the seven destructured properties and nothing
    else: two bodies that agree on them give the same run. *)
Theorem create_and_update_copy_seven_keys (params_id : string) (body body' : json) (st : S) :
  Forall (λ key, JS.get body key = JS.get body' key) Crud.copied_keys →
  Crud.post_game db body st = Crud.post_game db body' st
  ∧ Crud.put_game rt db params_id body st = Crud.put_game rt db params_id body' st.
Proof.
  intros Hsame. run_route. by rewrite (read_fields_same_keys body body' Hsame).
Qed.

(** The list route answers with status 200 in every case: the games when
    the query answers, and the error itself when it rejects. *)
Theorem get_games_always_200 (st : S) :
  Crud.get_games db st =
    match Crud.findAll db st None with
    | inr games =>
        (inr (Crud.Build_answer 200 (Crud.Games games)), st, [Crud.FindAll None])
    | inl e =>
        (inr (Crud.Build_answer 200 (Crud.Failed e)), st,
         [Crud.FindAll None; Crud.Log "***There was an error querying games" None e])
    end
  ∧ ∃ a, Crud.outcome (Crud.get_games db st) = inr a ∧ Crud.http_status a = 200.
Proof.
  run_route. destruct (Crud.findAll db st None); cbn; eauto.
Qed.

End OtherRoutes.

Lemma search_name_without_platform_witness :
  Crud.search_games CrudFixture.runtime (CrudFixture.table (λ _, inr [CrudFixture.tetris]))
    (JObj [("name", JStr " Tetris "); ("platform", JStr "   ")]) [CrudFixture.tetris] =
    (inr (Crud.Build_answer 400
            (Crud.ErrorMessage "Platform is required when name is provided")),
     [CrudFixture.tetris], []).
Proof.
  apply (search_name_without_platform CrudFixture.runtime
           (CrudFixture.table (λ _, inr [CrudFixture.tetris]))
           (JObj [("name", JStr " Tetris "); ("platform", JStr "   ")])
           [CrudFixture.tetris] (Some (JStr " Tetris ")) (Some (JStr "   ")) "tetris");
    first [ discriminate | vm_compute; reflexivity ].
Defined.

Lemma search_not_text_throws_witness :
  Crud.search_games CrudFixture.runtime (CrudFixture.table (λ _, inr [CrudFixture.tetris]))
    (JObj [("name", JStr "tetris"); ("platform", JNum 5)]) [CrudFixture.tetris] =
    (inl TypeError, [CrudFixture.tetris], []).
Proof.
  apply (search_not_text_throws CrudFixture.runtime
           (CrudFixture.table (λ _, inr [CrudFixture.tetris]))
           (JObj [("name", JStr "tetris"); ("platform", JNum 5)])
           [CrudFixture.tetris] (Some (JStr "tetris")) (Some (JNum 5)));
    [reflexivity | reflexivity | left; reflexivity].
Defined.

Lemma search_query_witness :
  let db := CrudFixture.table (λ _, inr [CrudFixture.tetris]) in
  let query :=
    {| Crud.where_platform := if String.eqb "ios" "" then None else Some "ios";
       Crud.where_name_like :=
         if String.eqb "tet" "" then None else Some ("%" +:+ "tet" +:+ "%") |} in
  Crud.search_games CrudFixture.runtime db
    (JObj [("name", JStr " TET "); ("platform", JStr "iOS")]) [] =
    match Crud.findAll db [] (Some query) with
    | inr games =>
        (inr (Crud.Build_answer 200 (Crud.Games games)), [], [Crud.FindAll (Some query)])
    | inl e =>
        (inr (Crud.Build_answer 400 (Crud.Failed e)), [],
         [Crud.FindAll (Some query);
          Crud.Log "***There was an error searching games using where=" (Some query) e])
    end.
Proof.
  intros db.
  apply (search_query CrudFixture.runtime db
           (JObj [("name", JStr " TET "); ("platform", JStr "iOS")]) []
           (Some (JStr " TET ")) (Some (JStr "iOS")) "tet" "ios");
    first [ right; discriminate | vm_compute; reflexivity ].
Defined.

Lemma delete_game_missing_witness :
  Crud.delete_game CrudFixture.runtime (CrudFixture.table (λ _, inr [])) "2"
    [CrudFixture.tetris] =
    (inr (Crud.Build_answer 400 (Crud.Failed TypeError)), [CrudFixture.tetris],
     [Crud.FindByPk (Crud.parseInt CrudFixture.runtime "2");
      Crud.Log "***There was an error deleting game" None TypeError]).
Proof.
  apply (delete_game_missing CrudFixture.runtime (CrudFixture.table (λ _, inr [])) "2"
           [CrudFixture.tetris]).
  vm_compute. reflexivity.
Defined.

Lemma put_game_missing_witness :
  Crud.put_game CrudFixture.runtime (CrudFixture.table (λ _, inr [])) "2"
    (JObj [("name", JStr "Tetris 2")]) [CrudFixture.tetris] =
    (inl TypeError, [CrudFixture.tetris],
     [Crud.FindByPk (Crud.parseInt CrudFixture.runtime "2")]).
Proof.
  apply (put_game_missing CrudFixture.runtime (CrudFixture.table (λ _, inr [])) "2"
           (JObj [("name", JStr "Tetris 2")]) [CrudFixture.tetris]).
  vm_compute. reflexivity.
Defined.

Lemma create_and_update_copy_seven_keys_witness :
  let db := CrudFixture.table (λ _, inr []) in
  let body := JObj [("name", JStr "Tetris"); ("id", JNum 99); ("createdAt", JNull)] in
  let body' := JObj [("name", JStr "Tetris")] in
  Crud.post_game db body [CrudFixture.tetris] = Crud.post_game db body' [CrudFixture.tetris]
  ∧ Crud.put_game CrudFixture.runtime db "1" body [CrudFixture.tetris]
    = Crud.put_game CrudFixture.runtime db "1" body' [CrudFixture.tetris].
Proof.
  intros db body body'.
  apply (create_and_update_copy_seven_keys CrudFixture.runtime db "1" body body'
           [CrudFixture.tetris]).
  repeat constructor.
Defined.

(** ** Numbers as text *)

(** [toString] on numbers: the digits below 2^53, the nearest double with the
    fewest digits beyond, exponent notation from 21 digits on. *)
Example number_toString_examples :
  JS.toString (JNum 1234) = inr "1234"
  ∧ JS.toString (JNum (-5)) = inr "-5"
  ∧ JS.toString (JNum (2 ^ 53 + 1)) = inr "9007199254740992"
  ∧ JS.toString (JNum (2 ^ 64)) = inr "18446744073709552000"
  ∧ JS.toString (JNum 123456789012345678901) = inr "123456789012345680000"
  ∧ JS.toString (JNum (10 ^ 21)) = inr "1e+21"
  ∧ JS.toString (JNum (2 ^ 70)) = inr "1.1805916207174113e+21"
  ∧ JS.toString (JNum (- 10 ^ 23)) = inr "-1e+23"
  ∧ JS.toString (JNum (10 ^ 400)) = inr "Infinity".
Proof. vm_compute. split_and!; reflexivity. Qed.
